(** * turret: detection pipelines and the sound categorizer

    A shallow embedding of [modules/imgutils.py], [modules/detect.py] and
    [modules/soundcat.py].

    Images are numpy arrays: mutable objects that live in a store and are
    reached through handles, so that drawing on a frame is seen through
    every alias of it while a [copy()] is not.  Calls into OpenCV, pygame,
    the file system, the clock and the random generator are recorded in the
    order in which the code makes them. *)

From Stdlib Require Import ZArith QArith Lqa String List Bool Lia.
From stdpp Require Import base option list strings pretty gmap.

Set Default Proof Using "Type".
Local Open Scope Z_scope.

(** ** numpy: 32-bit elements and slicing *)

Module np.

(** [cv2] hands rectangles back as arrays of dtype int32; arithmetic on
    their elements wraps around. *)
Definition wrap32 (z : Z) : Z := (z + 2 ^ 31) mod 2 ^ 32 - 2 ^ 31.

Definition add (a b : Z) : Z := wrap32 (a + b).

Definition int32 (z : Z) : Prop := - 2 ^ 31 <= z < 2 ^ 31.

(** Resolution of one bound of [a[start:stop]] against a length [n]:
    a negative bound counts from the end, and both are clipped. *)
Definition slice_index (n i : Z) : Z :=
  if i <? 0 then Z.max (i + n) 0 else Z.min i n.

Definition slice {A} (start stop : Z) (l : list A) : list A :=
  let n := Z.of_nat (length l) in
  let s := slice_index n start in
  let e := slice_index n stop in
  take (Z.to_nat (e - s)) (drop (Z.to_nat s) l).

(** [a[r0:r1, c0:c1]] on an array stored as a list of rows. *)
Definition slice2 {A} (r0 r1 c0 c1 : Z) (a : list (list A)) : list (list A) :=
  map (slice c0 c1) (slice r0 r1 a).

End np.

(** ** The store of images and the OpenCV calls *)

Module cv2.

Definition Pixel : Type := Z * Z * Z.            (* B, G, R *)
Definition Color : Type := Z * Z * Z.
Abbreviation Frame := (list (list Pixel)).   (* rows of pixels *)
Definition Rect : Type := Z * Z * Z * Z.
Definition loc : Type := nat.

(** A handle on image data: an array that owns its pixels, or the view
    [base[r0:r1, c0:c1]] that shares them with its base. *)
Inductive ndarray : Type :=
| Whole (l : loc)
| View (l : loc) (r0 r1 c0 c1 : Z).

(** Anything that can be handed to OpenCV as an image. *)
Class ImageLike (H : Type) := as_ndarray : H -> ndarray.
#[global] Instance loc_image : ImageLike loc := Whole.
#[global] Instance ndarray_image : ImageLike ndarray := fun a => a.

(** The image operations of OpenCV, as functions of the pixels they are
    given.  What they compute is outside this repository. *)
Class OpenCV : Type := {
  draw_rectangle : Frame -> Z * Z -> Z * Z -> Color -> Z -> Frame;
  Gray : Type;
  cvtColor_BGR2GRAY : Frame -> Gray;
  GaussianBlur : Gray -> Z * Z -> Z -> Gray;
  absdiff : Gray -> Gray -> Gray;
  threshold_BINARY : Gray -> Z -> Z -> Gray;
  dilate : Gray -> Z -> Gray;
  Contour : Type;
  findContours_EXTERNAL_SIMPLE : Gray -> list Contour;
  contourArea : Contour -> Q;
  boundingRect : Contour -> Rect
}.

(** A loaded cascade: the file it was read from and the rectangles
    (x, y, width, height) it reports on given pixels. *)
Record CascadeClassifier : Type := {
  xml : string;
  classify : Frame -> Q -> Z -> Z -> Z * Z -> list Rect
}.

Inductive Event : Type :=
| detectMultiScale_call (cascade : string) (image : ndarray)
    (scaleFactor : Q) (minNeighbors flags : Z) (minSize : Z * Z)
    (objects : list Rect)
| rectangle_call (img : loc) (pt1 pt2 : Z * Z) (color : Color) (thickness : Z).

Record World : Type := { heap : list Frame; calls : list Event }.

(** Computations over the world; [None] is a dangling handle. *)
Definition M (A : Type) : Type := World -> option (A * World).

Definition ret {A} (a : A) : M A := fun σ => Some (a, σ).

Definition bind {A B} (m : M A) (k : A -> M B) : M B :=
  fun σ => match m σ with
           | Some (a, σ') => k a σ'
           | None => None
           end.

Definition pixels (a : ndarray) (hp : list Frame) : option Frame :=
  match a with
  | Whole l => hp !! l
  | View l r0 r1 c0 c1 => np.slice2 r0 r1 c0 c1 <$> hp !! l
  end.

Definition read (a : ndarray) : M Frame :=
  fun σ => match pixels a (heap σ) with
           | Some f => Some (f, σ)
           | None => None
           end.

Definition log (e : Event) : M unit :=
  fun σ => Some (tt, {| heap := heap σ; calls := calls σ ++ [e] |}).

Definition store (l : loc) (f : Frame) : M unit :=
  fun σ => Some (tt, {| heap := <[l := f]> (heap σ); calls := calls σ |}).

(** [a.copy()]: a new array with the pixels [a] has now. *)
Definition copy (a : loc) : M loc :=
  fun σ => match heap σ !! a with
           | Some f => Some (length (heap σ),
                             {| heap := heap σ ++ [f]; calls := calls σ |})
           | None => None
           end.

(** The events a computation added. *)
Definition new_calls (σ σ' : World) : list Event :=
  drop (length (calls σ)) (calls σ').

(** The classifier calls among the events: which cascade, on which image,
    with which minimum window. *)
Definition images (evs : list Event) : list (string * ndarray * (Z * Z)) :=
  flat_map (fun e => match e with
                     | detectMultiScale_call c image _ _ _ minSize _ =>
                         [(c, image, minSize)]
                     | _ => []
                     end) evs.

Definition color_eqb (c d : Color) : bool :=
  let '(c0, c1, c2) := c in
  let '(d0, d1, d2) := d in
  (c0 =? d0) && (c1 =? d1) && (c2 =? d2).

(** The rectangles (x1, y1, x2, y2) drawn in a given color. *)
Definition drawn (color : Color) (evs : list Event) : list Rect :=
  flat_map (fun e => match e with
                     | rectangle_call _ (x1, y1) (x2, y2) c _ =>
                         if color_eqb c color then [(x1, y1, x2, y2)] else []
                     | _ => []
                     end) evs.

End cv2.

Declare Scope py_scope.
Delimit Scope py_scope with py.
Notation "'let*' x := m 'in' k" := (cv2.bind m (fun x => k))
  (at level 10, x pattern, m at level 100, k at level 200) : py_scope.
Notation "m ;; k" := (cv2.bind m (fun _ => k))
  (at level 100, right associativity) : py_scope.

Module cv2_calls.
Import cv2.
Local Open Scope py_scope.

(** [cv2.rectangle(img, pt1, pt2, color, thickness)] draws in place. *)
Definition rectangle `{OpenCV} (img : loc) (pt1 pt2 : Z * Z) (color : Color)
    (thickness : Z) : M unit :=
  let* f := read (Whole img) in
  store img (draw_rectangle f pt1 pt2 color thickness) ;;
  log (rectangle_call img pt1 pt2 color thickness).

(** [cascade.detectMultiScale(image, scaleFactor, minNeighbors, flags, minSize)] *)
Definition detectMultiScale (cascade : CascadeClassifier) (image : ndarray)
    (scaleFactor : Q) (minNeighbors flags : Z) (minSize : Z * Z) : M (list Rect) :=
  let* f := read image in
  let objects := classify cascade f scaleFactor minNeighbors flags minSize in
  log (detectMultiScale_call (xml cascade) image scaleFactor minNeighbors flags
         minSize objects) ;;
  ret objects.

(** A [for] statement whose body updates the variables [s]. *)
Fixpoint for_ {A S} (l : list A) (body : A -> S -> M S) (s : S) : M S :=
  match l with
  | [] => ret s
  | a :: l' => let* s' := body a s in for_ l' body s'
  end.

End cv2_calls.

(** ** modules/imgutils.py *)

Module imgutils.
Import cv2 cv2_calls.
Local Open Scope py_scope.

(** (x, y, width, height) to (x1, y1, x2, y2): [rects[:, 2:] += rects[:, :2]]
    adds column 0 to column 2 and column 1 to column 3, in place, in the
    arithmetic of the array's elements. *)
Definition add_origin (rects : list Rect) : list Rect :=
  map (fun '(x, y, w, h) => (x, y, np.add w x, np.add h y)) rects.

Definition detect_pattern {H} `{ImageLike H} (img : H)
    (cascade : CascadeClassifier) (min_rectangle : Z * Z) : M (list Rect * H) :=
  let* rects := detectMultiScale cascade (as_ndarray img) (12 # 10) 3 1 min_rectangle in
  if (length rects =? 0)%nat then ret ([], img)
  else
    let rects := add_origin rects in
    ret (rects, img).

Definition green : Color := (0, 255, 0).

Definition box `{OpenCV} (coords : list Rect) (img : loc) (color : Color) : M loc :=
  for_ coords (fun '(x1, y1, x2, y2) (_ : unit) =>
                 rectangle img (x1, y1) (x2, y2) color 2) tt ;;
  ret img.

(** [crop(img, startx, endx, starty, endy)] is [img[starty:endy, startx:endx]]. *)
Definition crop (img : loc) (startx endx starty endy : Z) : ndarray :=
  View img starty endy startx endx.

End imgutils.

(** ** modules/detect.py *)

Module detect.
Import cv2 cv2_calls.
Local Open Scope py_scope.

Definition red : Color := (0, 0, 255).

Section single_cascade.
Context `{OpenCV}.

(** The result is [(frame, found)], with the rectangles as third component
    when [return_faces] is set. *)
Definition single_cascade (frame : loc) (cascade : CascadeClassifier)
    (return_faces drawboxes : bool) : M (loc * bool * option (list Rect)) :=
  let* (rects, frame) := imgutils.detect_pattern frame cascade (60, 60) in
  let* frame :=
    if drawboxes then imgutils.box rects frame imgutils.green else ret frame in
  let found := false in
  let found := if (0 <? length rects)%nat then true else found in
  if return_faces then ret (frame, found, Some rects)
  else ret (frame, found, None).

End single_cascade.

Section double_cascade.
Context `{OpenCV}.

(** Lines 51-61: the faces of one upper body, moved by its origin and drawn. *)
Definition for_faces (x y : Z) (rects_face : list Rect) (frame : loc) : M loc :=
  for_ rects_face
    (fun '(xf, yf, wf, hf) frame =>
       let xf := np.add xf x in
       let yf := np.add yf y in
       let wf := np.add wf x in
       let hf := np.add hf y in
       imgutils.box [(xf, yf, wf, hf)] frame red)
    frame.

(** Lines 46-61: the loop over the upper bodies; it assigns [frame] and
    [rects_face]. *)
Definition for_upperbody (cascade_face : CascadeClassifier)
    (rects_upperbody : list Rect) (frame : loc) (rects_face : list Rect)
    : M (loc * list Rect) :=
  for_ rects_upperbody
    (fun '(x, y, w, h) '(frame, rects_face) =>
       let frame_crop := View frame y h x w in
       let* (rects_face, frame_crop) :=
         imgutils.detect_pattern frame_crop cascade_face (25, 25) in
       let* frame := for_faces x y rects_face frame in
       ret (frame, rects_face))
    (frame, rects_face).

(** The faces returned when [return_faces] is set. *)
Definition faces_returned (rects_face rects_upperbody : list Rect) : list Rect :=
  flat_map (fun '(xf, yf, wf, hf) =>
              map (fun '(x, y, w, h) =>
                     (np.add xf x, np.add yf y, np.add wf x, np.add hf y))
                  rects_upperbody)
           rects_face.

(** The result is [(frame, found)], with the faces as third component
    when [return_faces] is set. *)
Definition double_cascade (frame : loc) (return_faces : bool)
    (cascade_upperbody cascade_face : CascadeClassifier)
    : M (loc * bool * option (list Rect)) :=
  let* (rects_upperbody, frame) :=
    imgutils.detect_pattern frame cascade_upperbody (60, 60) in
  let* frame := imgutils.box rects_upperbody frame imgutils.green in
  let rects_face := [] in
  let found := false in
  let* (frame, rects_face) :=
    if (0 <? length rects_upperbody)%nat
    then for_upperbody cascade_face rects_upperbody frame rects_face
    else ret (frame, rects_face) in
  let found := if (0 <? length rects_face)%nat then true else found in
  if return_faces
  then ret (frame, found, Some (faces_returned rects_face rects_upperbody))
  else ret (frame, found, None).

End double_cascade.

Section motion_detection.
Context `{OpenCV}.

(** [cv2.cvtColor(src, cv2.COLOR_BGR2GRAY)]: a new array. *)
Definition cvtColor (src : loc) : M Gray :=
  let* f := read (Whole src) in
  ret (cvtColor_BGR2GRAY f).

Definition Qltb (a b : Q) : bool := negb (Qle_bool b a).

Definition motion_detection (frame first_frame : loc) (thresh it : Z)
    (min_area max_area : Q) : M (loc * loc * bool) :=
  let found := false in
  let* raw_frame := copy frame in
  let* first_frame := cvtColor first_frame in
  let first_frame := GaussianBlur first_frame (21, 21) 0 in
  let* gray := cvtColor frame in
  let gray := GaussianBlur gray (21, 21) 0 in
  let frameDelta := absdiff first_frame gray in
  let thresh := threshold_BINARY frameDelta thresh 255 in
  let thresh := dilate thresh it in
  let cnts := findContours_EXTERNAL_SIMPLE thresh in
  let* found :=
    for_ cnts
      (fun c found =>
         if Qltb (contourArea c) min_area then ret found
         else
           let '(x, y, w, h) := boundingRect c in
           if Qltb max_area (inject_Z (w * h)) then ret found
           else
             rectangle frame (x, y) (x + w, y + h) (0, 255, 0) 2 ;;
             ret true)
      found in
  ret (frame, raw_frame, found).

End motion_detection.

(** The regions searched for faces, read off the classifier calls made on
    views: the origin (x, y) of the view and the faces reported in it, as
    [detect_pattern] returns them. *)
Definition regions (evs : list Event) : list (Z * Z * list Rect) :=
  flat_map (fun e => match e with
                     | detectMultiScale_call _ (View _ r0 _ c0 _) _ _ _ _ objects =>
                         [(c0, r0, imgutils.add_origin objects)]
                     | _ => []
                     end) evs.

End detect.

(** ** modules/soundcat.py *)

Module soundcat.

Inductive Exception : Type :=
| KeyError (key : string)
| ValueError (msg : string)
| ZeroDivisionError
| OSError (path : string)
| pygame_error (path : string).   (* raised by [pygame.mixer.Sound(path)] *)

Inductive AudioEvent : Type :=
| pygame_init
| mixer_init
| mixer_quit
| Sound_load (path : string)
| Sound_play (path : string).

(** What the object reaches outside itself: the clock ([clock n] is the
    [n]-th reading of [time.time()]), the random generator, the file system
    and the audio library: which files it can read as sound ([loadable]),
    whether its mixer is running ([mixer]), and what it was made to do
    ([audio]; [Sound_load] stands for a sample that was loaded). *)
Record World : Type := {
  clock : nat -> Q;
  ticks : nat;
  random : nat -> nat;
  draws : nat;
  listdir : string -> option (list string);
  loadable : string -> bool;
  mixer : bool;
  audio : list AudioEvent
}.

(** Python's floats.  Times and [pps] are finite numbers, taken as the
    rationals they are; an operation on them gives the exact result
    rounded to a float.  The rounding is left open: it is monotone and
    keeps zero. *)
Class Rounding : Type := {
  round : Q -> Q;
  round_mono : forall x y : Q, (x <= y)%Q -> (round x <= round y)%Q;
  round_0 : (round 0 == 0)%Q
}.

Definition M (A : Type) : Type := World -> (Exception + A) * World.

Definition ret {A} (a : A) : M A := fun w => (inr a, w).

Definition raise {A} (e : Exception) : M A := fun w => (inl e, w).

Definition bind {A B} (m : M A) (k : A -> M B) : M B :=
  fun w => match m w with
           | (inr a, w') => k a w'
           | (inl e, w') => (inl e, w')
           end.

Declare Scope snd_scope.
Delimit Scope snd_scope with snd.
Notation "'let*' x := m 'in' k" := (bind m (fun x => k))
  (at level 10, x pattern, m at level 100, k at level 200) : snd_scope.
Notation "m ;; k" := (bind m (fun _ => k))
  (at level 100, right associativity) : snd_scope.
Local Open Scope snd_scope.

(** [time.time()] *)
Definition time_time : M Q :=
  fun w => (inr (clock w (ticks w)),
            {| clock := clock w; ticks := S (ticks w); random := random w;
               draws := draws w; listdir := listdir w; loadable := loadable w;
               mixer := mixer w; audio := audio w |}).

(** The message of [random.randrange] on an empty range:
    ["empty range for randrange() (%d, %d, %d)" % (start, stop, width)]. *)
Definition empty_range (start stop : Z) : string :=
  ("empty range for randrange() (" +:+ pretty start +:+ ", " +:+ pretty stop
     +:+ ", " +:+ pretty (stop - start) +:+ ")")%string.

(** [random.randrange(start, stop)]: any value of the range can come out;
    an empty range raises. *)
Definition randrange (start stop : Z) : M Z :=
  fun w =>
    if (start <? stop)%Z
    then (inr (start + Z.of_nat (random w (draws w)) mod (stop - start))%Z,
          {| clock := clock w; ticks := ticks w; random := random w;
             draws := S (draws w); listdir := listdir w; loadable := loadable w;
             mixer := mixer w; audio := audio w |})
    else (inl (ValueError (empty_range start stop)), w).

(** [os.listdir(path)] *)
Definition os_listdir (path : string) : M (list string) :=
  fun w => match listdir w path with
           | Some entries => (inr entries, w)
           | None => (inl (OSError path), w)
           end.

(** A call into the audio library; the mixer runs from
    [pygame.mixer.init()] to [pygame.mixer.quit()].  Starting and stopping
    the library is taken to succeed. *)
Definition emit (e : AudioEvent) : M unit :=
  fun w => (inr tt,
            {| clock := clock w; ticks := ticks w; random := random w;
               draws := draws w; listdir := listdir w; loadable := loadable w;
               mixer := match e with
                        | mixer_init => true
                        | mixer_quit => false
                        | _ => mixer w
                        end;
               audio := audio w ++ [e] |}).

(** [pygame.mixer.Sound(path)]: raises [pygame.error] when the mixer is
    not running or the file is not one the library can read as sound. *)
Definition mixer_Sound (path : string) : M string :=
  fun w => if mixer w && loadable w path
           then (emit (Sound_load path) ;; ret path) w
           else (inl (pygame_error path), w).

(** [sound.play()] *)
Definition Sound_play_ (sound : string) : M unit := emit (Sound_play sound).

(** [a - b] on floats *)
Definition float_sub `{Rounding} (a b : Q) : Q := round (a - b).

(** [a / b], a float *)
Definition truediv `{Rounding} (a b : Q) : M Q :=
  if Qeq_bool b 0 then raise ZeroDivisionError else ret (round (a / b)).

(** [d[key]] *)
Definition getitem (d : gmap string string) (key : string) : M string :=
  match d !! key with
  | Some v => ret v
  | None => raise (KeyError key)
  end.

(** [s.endswith(suffix)] *)
Definition endswith (s suffix : string) : bool :=
  let n := String.length s in
  let m := String.length suffix in
  (m <=? n)%nat && String.eqb (substring (n - m) m s) suffix.

(** ["/".join((a, b))] *)
Definition join_slash (a b : string) : string := (a +:+ "/" +:+ b)%string.

Definition Qgtb (a b : Q) : bool := negb (Qle_bool a b).

Record Soundcat : Type := {
  _categories : gmap string string;
  pps : Q;
  _last_play_time : Q
}.

(** [Soundcat(pps)] *)
Definition __init__ (pps : Q) : M Soundcat :=
  emit pygame_init ;;
  emit mixer_init ;;
  let _categories := ∅ in
  let* now := time_time in
  ret {| _categories := _categories; pps := pps; _last_play_time := now |}.


Definition add_category (self : Soundcat) (category_name directory : string)
    : M Soundcat :=
  ret {| _categories := <[category_name := directory]> (_categories self);
         pps := pps self;
         _last_play_time := _last_play_time self |}.

(** Lines 124-127: the entries that end in [.wav], in listing order. *)
Definition wav_entries (entries : list string) : list string :=
  fold_left (fun sounds entry =>
               if endswith entry ".wav" then sounds ++ [entry] else sounds)
            entries [].

(** [play] assigns to [self] in its last statement only; it returns the
    object as it leaves it. *)
Definition play `{Rounding} (self : Soundcat) (category_name : string)
    (use_pps : bool) : M Soundcat :=
  let* speak :=
    if negb use_pps then ret true
    else
      let* now := time_time in
      let* period := truediv 1 (pps self) in
      ret (Qgtb (float_sub now (_last_play_time self)) period) in
  if speak : bool then
    let* directory := getitem (_categories self) category_name in
    let* entries := os_listdir directory in
    let sounds := wav_entries entries in
    let* directory := getitem (_categories self) category_name in
    let* i := randrange 0 (Z.of_nat (length sounds)) in
    let* sound :=
      mixer_Sound (join_slash directory (nth (Z.to_nat i) sounds ""%string)) in
    Sound_play_ sound ;;
    let* now := time_time in
    ret {| _categories := _categories self; pps := pps self;
           _last_play_time := now |}
  else ret self.

(** The object a call leaves behind: when the call raises, the object it
    was given. *)
Definition after (self : Soundcat) (r : Exception + Soundcat) : Soundcat :=
  match r with
  | inr self' => self'
  | inl _ => self
  end.

End soundcat.

(** ** Stand-ins for the libraries, for running the code on examples *)

Module doubles.
Import cv2.

Definition on_outline (x1 y1 x2 y2 r c : Z) : bool :=
  (x1 <=? c) && (c <=? x2) && (y1 <=? r) && (r <=? y2) &&
  ((c =? x1) || (c =? x2) || (r =? y1) || (r =? y2)).

(** A one-pixel outline, clipped to the frame. *)
Definition outline (f : Frame) (pt1 pt2 : Z * Z) (color : Color) (thickness : Z)
    : Frame :=
  let '(x1, y1) := pt1 in
  let '(x2, y2) := pt2 in
  imap (fun r row =>
          imap (fun c px =>
                  if on_outline x1 y1 x2 y2 (Z.of_nat r) (Z.of_nat c)
                  then color else px) row) f.

Definition luminance (f : Frame) : list (list Z) :=
  map (map (fun '(b, g, r) => (114 * b + 587 * g + 299 * r + 500) / 1000)) f.

Definition difference (a b : list (list Z)) : list (list Z) :=
  zip_with (zip_with (fun u v => Z.abs (u - v))) a b.

Definition binarize (a : list (list Z)) (thresh maxval : Z) : list (list Z) :=
  map (map (fun v => if thresh <? v then maxval else 0)) a.

(** The lit pixels, as (x, y). *)
Definition lit (a : list (list Z)) : list (Z * Z) :=
  concat (imap (fun r row =>
                  omap (fun p => p)
                    (imap (fun c v => if v =? 0 then None
                                      else Some (Z.of_nat c, Z.of_nat r)) row)) a).

Definition span (zs : list Z) : Z * Z :=
  match zs with
  | [] => (0, 0)
  | z :: zs' => (fold_right Z.min z zs', fold_right Z.max z zs')
  end.

(** One blob: the corners of the box around all lit pixels. *)
Definition blob (a : list (list Z)) : list (list (Z * Z)) :=
  match lit a with
  | [] => []
  | ps =>
      let '(x0, x1) := span (map fst ps) in
      let '(y0, y1) := span (map snd ps) in
      [[(x0, y0); (x0, y1); (x1, y1); (x1, y0)]]
  end.

Fixpoint shoelace (first : Z * Z) (ps : list (Z * Z)) : Z :=
  match ps with
  | [] => 0
  | [p] => fst p * snd first - fst first * snd p
  | p :: (q :: _) as ps' => fst p * snd q - fst q * snd p + shoelace first ps'
  end.

Definition polygon_area (ps : list (Z * Z)) : Q :=
  match ps with
  | [] => 0
  | p :: _ => Z.abs (shoelace p ps) # 2
  end.

Definition bounding (ps : list (Z * Z)) : Rect :=
  let '(x0, x1) := span (map fst ps) in
  let '(y0, y1) := span (map snd ps) in
  (x0, y0, x1 - x0 + 1, y1 - y0 + 1).

Definition opencv : OpenCV := {|
  draw_rectangle := outline;
  Gray := list (list Z);
  cvtColor_BGR2GRAY := luminance;
  GaussianBlur := fun a _ _ => a;
  absdiff := difference;
  threshold_BINARY := binarize;
  dilate := fun a _ => a;
  Contour := list (Z * Z);
  findContours_EXTERNAL_SIMPLE := blob;
  contourArea := polygon_area;
  boundingRect := bounding
|}.

Definition pixel_eqb (p q : Pixel) : bool := color_eqb p q.

(** A cascade that reports a [w] by [h] rectangle around every pixel of
    the color [marker]. *)
Definition marker_cascade (name : string) (marker : Pixel) (w h : Z)
    : CascadeClassifier :=
  {| xml := name;
     classify := fun f _ _ _ _ =>
       concat (imap (fun r row =>
                       omap (fun p => p)
                         (imap (fun c px =>
                                  if pixel_eqb px marker
                                  then Some (Z.of_nat c - w / 2,
                                             Z.of_nat r - h / 2, w, h)
                                  else None) row)) f) |}.

Definition black : Pixel := (0, 0, 0).
Definition blue : Pixel := (255, 0, 0).
Definition white : Pixel := (255, 255, 255).

Definition blank (rows cols : nat) : Frame := replicate rows (replicate cols black).

Definition put (x y : nat) (px : Pixel) (f : Frame) : Frame :=
  match f !! y with
  | Some row => <[y := <[x := px]> row]> f
  | None => f
  end.

Definition fill (x0 y0 w h : nat) (px : Pixel) (f : Frame) : Frame :=
  imap (fun r row =>
          imap (fun c old =>
                  if (x0 <=? c)%nat && (c <? x0 + w)%nat &&
                     (y0 <=? r)%nat && (r <? y0 + h)%nat
                  then px else old) row) f.

(** A face cascade with a 15 by 15 window. *)
Definition CASCADE_SMALL_FACE : CascadeClassifier :=
  marker_cascade "resources/haarcascades/haarcascade_frontalface_alt.xml" white 15 15.

Definition CASCADE_UPPERBODY : CascadeClassifier :=
  marker_cascade "resources/haarcascades/haarcascade_mcs_upperbody.xml" blue 70 70.
Definition CASCADE_FACE : CascadeClassifier :=
  marker_cascade "resources/haarcascades/haarcascade_frontalface_alt.xml" white 30 30.

(** Two upper bodies, at (10,10)-(80,80) and (100,10)-(170,80); a face in
    the first one only. *)
Definition two_bodies_one_face : Frame :=
  put 40 30 white (put 135 45 blue (put 45 45 blue (blank 100 180))).

(** One upper body at (100,50)-(170,120), with a small face at
    (5,5)-(20,20) of that region. *)
Definition body_at_100_50 : Frame :=
  put 112 62 white (put 135 85 blue (blank 130 180)).

Definition world_of (frames : list Frame) : World :=
  {| heap := frames; calls := [] |}.

(** A dark scene, and the same scene with a bright 16 by 16 square. *)
Definition still : Frame := blank 24 24.
Definition moved : Frame := fill 4 4 16 16 white (blank 24 24).

End doubles.

(** ** Vocabulary for stating what a call did *)

Module observe.
Import cv2.

Definition allocated (σ : World) (l : loc) : Prop := (l < length (heap σ))%nat.

(** What a computation leaves of the world it started in: the events it
    added, and every array but [img] as it was. *)
Definition extends (img : loc) (σ σ' : World) (evs : list Event) : Prop :=
  calls σ' = calls σ ++ evs ∧
  length (heap σ') = length (heap σ) ∧
  ∀ l, l ≠ img → heap σ' !! l = heap σ !! l.

(** The calls [box(coords, img, color)] makes. *)
Definition box_calls (img : loc) (color : Color) (coords : list Rect) : list Event :=
  map (fun '(x1, y1, x2, y2) => rectangle_call img (x1, y1) (x2, y2) color 2) coords.

(** A rectangle moved by (x, y), both corners. *)
Definition translate (x y : Z) (r : Rect) : Rect :=
  let '(xf, yf, wf, hf) := r in
  (np.add xf x, np.add yf y, np.add wf x, np.add hf y).

End observe.

(** ** Example runs *)

Module examples.
Import cv2 doubles.

(** What a run returned and the events it made. *)
Definition outcome {A} (r : option (A * World)) : option (A * list Event) :=
  match r with
  | Some (a, σ') => Some (a, calls σ')
  | None => None
  end.

(** The faces found in all regions together. *)
Definition all_faces (evs : list Event) : list Rect :=
  flat_map (fun '(_, _, faces) => faces) (detect.regions evs).

Definition two_bodies (return_faces : bool) :=
  @detect.double_cascade opencv 0%nat return_faces CASCADE_UPPERBODY CASCADE_FACE
    (world_of [two_bodies_one_face]).

End examples.

(** ** Vocabulary for the motion detector *)

Module motion.
Import cv2.

Section vocabulary.
Context `{OpenCV}.

(** Steps 1 to 5: the contours of the thresholded, dilated difference of
    the blurred gray images of the reference frame [g] and the frame [f]. *)
Definition contours (f g : Frame) (thresh it : Z) : list Contour :=
  findContours_EXTERNAL_SIMPLE
    (dilate
       (threshold_BINARY
          (absdiff (GaussianBlur (cvtColor_BGR2GRAY g) (21, 21) 0)
                   (GaussianBlur (cvtColor_BGR2GRAY f) (21, 21) 0))
          thresh 255)
       it).

Definition bbox_area (c : Contour) : Z :=
  let '(_, _, w, h) := boundingRect c in w * h.

(** A contour passes when its own area is at least [min_area] and the area
    of its bounding box is at most [max_area]. *)
Definition kept (min_area max_area : Q) (c : Contour) : Prop :=
  (min_area <= contourArea c)%Q ∧ (inject_Z (bbox_area c) <= max_area)%Q.

#[global] Instance Qle_dec (a b : Q) : Decision (a <= b)%Q.
Proof.
  destruct (Qlt_le_dec b a) as [Hlt | Hle].
  - right. by apply Qlt_not_le.
  - by left.
Defined.

#[global] Instance kept_dec min_area max_area c : Decision (kept min_area max_area c).
Proof. unfold kept. apply _. Defined.

(** The call that draws the bounding box of a contour. *)
Definition box_call (frame : loc) (c : Contour) : Event :=
  let '(x, y, w, h) := boundingRect c in
  rectangle_call frame (x, y) (x + w, y + h) (0, 255, 0) 2.

(** The pixels after the bounding box of a contour is drawn. *)
Definition paint (f : Frame) (c : Contour) : Frame :=
  let '(x, y, w, h) := boundingRect c in
  draw_rectangle f (x, y) (x + w, y + h) (0, 255, 0) 2.

End vocabulary.

End motion.

(** ** Vocabulary and examples for the sound categorizer *)

Module sounds.
Import soundcat.

(** How many samples were played, and loaded. *)
Definition plays (evs : list AudioEvent) : nat :=
  length (List.filter (fun e => match e with Sound_play _ => true | _ => false end) evs).

Definition loads (evs : list AudioEvent) : nat :=
  length (List.filter (fun e => match e with Sound_load _ => true | _ => false end) evs).

(** The audio events a computation added. *)
Definition new_audio (w w' : World) : list AudioEvent :=
  drop (length (audio w)) (audio w').

(** The errors that say that something asked for does not exist. *)
Definition NotFound_style (e : Exception) : bool :=
  match e with
  | KeyError _ => true
  | OSError _ => true
  | ValueError _ => false
  | ZeroDivisionError => false
  | pygame_error _ => false
  end.

(** [add_category] for each (name, directory) in turn. *)
Fixpoint add_categories (self : Soundcat) (regs : list (string * string))
    : M Soundcat :=
  match regs with
  | [] => ret self
  | (category_name, directory) :: regs' =>
      bind (add_category self category_name directory)
           (fun self' => add_categories self' regs')
  end.

(** A clock that reads 0, 1, 2, ... seconds, a directory with one sample
    and one without any; every file is one the library can read, and the
    mixer is not running yet. *)
Definition world0 : World :=
  {| clock := fun n => inject_Z (Z.of_nat n);
     ticks := 0;
     random := fun n => n;
     draws := 0;
     listdir := fun path =>
       if String.eqb path "/sounds/alarm" then Some ["siren.wav"; "notes.txt"]
       else if String.eqb path "/sounds/empty" then Some ["notes.txt"]
       else None;
     loadable := fun _ => true;
     mixer := false;
     audio := [] |}.

(** Floats that round nothing, for running [play] on examples. *)
Definition exact_floats : Rounding :=
  {| round := fun x => x;
     round_mono := fun x y Hle => Hle;
     round_0 := Qeq_refl 0 |}.
#[export] Existing Instance exact_floats.

(** [Soundcat()] with the default [pps], then two categories. *)
Definition setup : M Soundcat :=
  bind (__init__ (1 # 10))
       (fun s => add_categories s [("alarm", "/sounds/alarm");
                                   ("empty", "/sounds/empty")]).

End sounds.

(** ** Worlds for the examples of [play] *)

Module later.
Import soundcat sounds.

(** The world [w] once [time.time()] has been read. *)
Definition tick (w : World) : World := snd (time_time w).

(** The object of [setup], a hundred seconds after it was made. *)
Definition self100 : Soundcat := after
  {| _categories := ∅; pps := 1 # 10; _last_play_time := 0 |} (fst (setup world0)).

Definition world100 : World :=
  {| clock := fun n => inject_Z (100 + Z.of_nat n);
     ticks := 0;
     random := fun n => n;
     draws := 0;
     listdir := listdir world0;
     loadable := loadable world0;
     mixer := true;
     audio := [] |}.

End later.

(** ** Vocabulary for what is left of a frame *)

Module annotate.
Import cv2.

Section vocabulary.
Context `{OpenCV}.

(** The pixels of the array [img] once the drawing calls among [evs] have
    been made on it, in their order. *)
Definition painted (img : loc) (evs : list Event) (f : Frame) : Frame :=
  fold_left (fun f e => match e with
                        | rectangle_call img' pt1 pt2 color thickness =>
                            if Nat.eqb img' img
                            then draw_rectangle f pt1 pt2 color thickness
                            else f
                        | _ => f
                        end) evs f.

End vocabulary.

(** The arrays on which something was drawn. *)
Definition targets (evs : list Event) : list loc :=
  flat_map (fun e => match e with
                     | rectangle_call img _ _ _ _ => [img]
                     | _ => []
                     end) evs.

End annotate.

(** ** The second stage of the two-stage detector, as specified *)

Module two_stage.
Import cv2 observe annotate.

Section specification.
Context `{OpenCV}.

(** Step 3 of the two-stage detector in the words of the specification,
    as the calls it makes on a frame with pixels [f]: for each coarse
    rectangle (x, y, w, h) in turn, the fine classifier runs on rows
    [y, h) and columns [x, w) of the frame as it is by then, and every
    fine rectangle it reports is drawn in red on the frame with both
    corners moved by (x, y). *)
Fixpoint fine_stage (cascade_face : CascadeClassifier) (frame : loc)
    (rects_upperbody : list Rect) (f : Frame) : list Event :=
  match rects_upperbody with
  | [] => []
  | (x, y, w, h) :: rest =>
      let objects :=
        classify cascade_face (np.slice2 y h x w f) (12 # 10) 3 1 (25, 25) in
      let boxes :=
        box_calls frame detect.red
          (map (translate x y) (imgutils.add_origin objects)) in
      detectMultiScale_call (xml cascade_face) (View frame y h x w) (12 # 10) 3 1
        (25, 25) objects
      :: boxes ++ fine_stage cascade_face frame rest (painted frame boxes f)
  end.

End specification.

End two_stage.

(** ** Calls of [play] in a row *)

Module bursts.
Import soundcat.

(** [play] on each name in turn, by a caller that goes on after an
    exception; the object and the world the calls leave. *)
Fixpoint play_each `{Rounding} (self : Soundcat) (category_names : list string)
    (use_pps : bool) (w : World) : Soundcat * World :=
  match category_names with
  | [] => (self, w)
  | category_name :: rest =>
      let '(r, w1) := play self category_name use_pps w in
      play_each (after self r) rest use_pps w1
  end.

End bursts.

(** * Properties *)

(** ** numpy *)

Lemma wrap32_int32 z : np.int32 z -> np.wrap32 z = z.
Proof.
  unfold np.int32, np.wrap32. intros Hz.
  rewrite Z.mod_small by lia. lia.
Qed.

Lemma add_int32 a b : np.int32 (a + b) -> np.add a b = a + b.
Proof. apply wrap32_int32. Qed.

Lemma slice_index_nonneg n i : 0 <= i -> np.slice_index n i = Z.min i n.
Proof.
  unfold np.slice_index. intros Hi.
  destruct (Z.ltb_spec i 0); [lia | done].
Qed.

(** For bounds that are not negative, [l[start:stop]] holds the elements
    of [l] at positions [start <= p < stop]. *)
Lemma slice_lookup {A} (l : list A) (start stop : Z) (i : nat) :
  0 <= start -> 0 <= stop ->
  np.slice start stop l !! i =
    if decide (start + Z.of_nat i < stop) then l !! (Z.to_nat start + i)%nat
    else None.
Proof.
  intros Hs He. unfold np.slice.
  rewrite !slice_index_nonneg by done.
  set (n := Z.of_nat (length l)).
  destruct (decide (start + Z.of_nat i < stop)) as [Hin | Hout].
  - destruct (decide (Z.to_nat start + i < length l)%nat) as [Hlt | Hge].
    + rewrite lookup_take_lt by lia.
      rewrite lookup_drop. f_equal. lia.
    + rewrite (lookup_ge_None_2 l) by lia.
      apply lookup_ge_None_2. rewrite length_take, length_drop. lia.
  - apply lookup_ge_None_2. rewrite length_take. lia.
Qed.

Lemma slice2_lookup {A} (a : list (list A)) (r0 r1 c0 c1 : Z) (i j : nat) :
  0 <= r0 -> 0 <= r1 -> 0 <= c0 -> 0 <= c1 ->
  np.slice2 r0 r1 c0 c1 a !! i ≫= (.!! j) =
    if decide (r0 + Z.of_nat i < r1 ∧ c0 + Z.of_nat j < c1)
    then a !! (Z.to_nat r0 + i)%nat ≫= (.!! (Z.to_nat c0 + j)%nat)
    else None.
Proof.
  intros Hr0 Hr1 Hc0 Hc1. unfold np.slice2.
  rewrite list_lookup_fmap, slice_lookup by done.
  destruct (decide (r0 + Z.of_nat i < r1)) as [Hr | Hr].
  - destruct (a !! (Z.to_nat r0 + i)%nat) as [row |] eqn:Hrow; simpl.
    + rewrite slice_lookup by done.
      destruct (decide (c0 + Z.of_nat j < c1)).
      * rewrite decide_True by done. done.
      * rewrite decide_False by tauto. done.
    + by destruct (decide _).
  - simpl. rewrite decide_False by tauto. done.
Qed.

(** ** Running the calls *)

Section runs.
Import cv2 cv2_calls observe.
Context `{OpenCV}.

Lemma extends_refl img σ : extends img σ σ [].
Proof. unfold extends. rewrite app_nil_r. done. Qed.

Lemma extends_trans img σ1 σ2 σ3 evs1 evs2 :
  extends img σ1 σ2 evs1 → extends img σ2 σ3 evs2 →
  extends img σ1 σ3 (evs1 ++ evs2).
Proof.
  intros (Hc1 & Hl1 & Hh1) (Hc2 & Hl2 & Hh2). repeat split.
  - rewrite Hc2, Hc1. by rewrite app_assoc.
  - congruence.
  - intros l Hl. rewrite Hh2, Hh1; done.
Qed.

Lemma extends_allocated img σ σ' evs l :
  extends img σ σ' evs → allocated σ l → allocated σ' l.
Proof. intros (_ & Hl & _). unfold allocated. lia. Qed.

Lemma extends_new_calls img σ σ' evs :
  extends img σ σ' evs → new_calls σ σ' = evs.
Proof.
  intros (Hc & _). unfold new_calls. rewrite Hc.
  by rewrite drop_app_length.
Qed.

Lemma allocated_lookup σ l : allocated σ l → ∃ f, heap σ !! l = Some f.
Proof. intros Hl. by apply lookup_lt_is_Some_2. Qed.

Lemma bind_Some {A B} (m : M A) (k : A → M B) σ a σ' :
  m σ = Some (a, σ') → bind m k σ = k a σ'.
Proof. unfold bind. by intros ->. Qed.

Lemma bind_bind_Some {A B C} (m : M A) (k1 : A → M B) (k2 : B → M C) σ a σ' :
  m σ = Some (a, σ') → bind (bind m k1) k2 σ = bind (k1 a) k2 σ'.
Proof. unfold bind. by intros ->. Qed.

Lemma rectangle_run img pt1 pt2 color thickness σ f :
  heap σ !! img = Some f →
  rectangle img pt1 pt2 color thickness σ =
    Some (tt, {| heap := <[img := draw_rectangle f pt1 pt2 color thickness]> (heap σ);
                 calls := calls σ ++ [rectangle_call img pt1 pt2 color thickness] |}).
Proof.
  intros Hf. unfold rectangle, bind, read, store, log. simpl. by rewrite Hf.
Qed.

Lemma rectangle_extends img pt1 pt2 color thickness σ :
  allocated σ img →
  ∃ σ', rectangle img pt1 pt2 color thickness σ = Some (tt, σ') ∧
        extends img σ σ' [rectangle_call img pt1 pt2 color thickness].
Proof.
  intros Ha. destruct (allocated_lookup _ _ Ha) as [f Hf].
  eexists. split; [by apply rectangle_run |].
  repeat split; simpl.
  - apply length_insert.
  - intros l Hl. by apply list_lookup_insert_ne.
Qed.

Lemma detectMultiScale_run cascade image sf mn fl ms σ f :
  pixels image (heap σ) = Some f →
  detectMultiScale cascade image sf mn fl ms σ =
    Some (classify cascade f sf mn fl ms,
          {| heap := heap σ;
             calls := calls σ ++
               [detectMultiScale_call (xml cascade) image sf mn fl ms
                  (classify cascade f sf mn fl ms)] |}).
Proof.
  intros Hf. unfold detectMultiScale, bind, read, log, ret. by rewrite Hf.
Qed.

(** [detect_pattern] returns the classifier's rectangles with their
    origin added, and the image it was given. *)
Lemma detect_pattern_run {I} `{ImageLike I} (img : I) cascade min_rectangle σ f :
  pixels (as_ndarray img) (heap σ) = Some f →
  imgutils.detect_pattern img cascade min_rectangle σ =
    Some (imgutils.add_origin (classify cascade f (12 # 10) 3 1 min_rectangle), img,
          {| heap := heap σ;
             calls := calls σ ++
               [detectMultiScale_call (xml cascade) (as_ndarray img) (12 # 10) 3 1
                  min_rectangle
                  (classify cascade f (12 # 10) 3 1 min_rectangle)] |}).
Proof.
  intros Hf. unfold imgutils.detect_pattern.
  erewrite bind_Some by (by apply detectMultiScale_run).
  destruct (classify cascade f (12 # 10) 3 1 min_rectangle); done.
Qed.

Lemma box_run coords img color σ :
  allocated σ img →
  ∃ σ', imgutils.box coords img color σ = Some (img, σ') ∧
        extends img σ σ' (box_calls img color coords).
Proof.
  unfold imgutils.box.
  revert σ. induction coords as [| [[[x1 y1] x2] y2] coords IH]; intros σ Ha.
  - exists σ. split; [done | apply extends_refl].
  - destruct (rectangle_extends img (x1, y1) (x2, y2) color 2 σ Ha)
      as (σ1 & Hrun & Hext).
    destruct (IH σ1) as (σ2 & Hrun2 & Hext2).
    { by eapply extends_allocated. }
    exists σ2. split.
    + simpl. unfold bind in *. rewrite Hrun. simpl.
      destruct (for_ coords _ tt σ1) as [[[] σ3] |] eqn:Hfor; [| done].
      simpl in *. done.
    + apply (extends_trans _ _ _ _ [_] _ Hext Hext2).
Qed.

Lemma for_faces_run x y rects_face frame σ :
  allocated σ frame →
  ∃ σ', detect.for_faces x y rects_face frame σ = Some (frame, σ') ∧
        extends frame σ σ' (box_calls frame detect.red (map (translate x y) rects_face)).
Proof.
  unfold detect.for_faces.
  revert σ. induction rects_face as [| [[[xf yf] wf] hf] rects IH]; intros σ Ha.
  - exists σ. split; [done | apply extends_refl].
  - destruct (box_run [(np.add xf x, np.add yf y, np.add wf x, np.add hf y)]
                frame detect.red σ Ha) as (σ1 & Hrun & Hext).
    destruct (IH σ1) as (σ2 & Hrun2 & Hext2).
    { by eapply extends_allocated. }
    exists σ2. split.
    + simpl. erewrite bind_Some by exact Hrun. exact Hrun2.
    + apply (extends_trans _ _ _ _ _ _ Hext Hext2).
Qed.

End runs.

(** ** Reading the events *)

Section events.
Import cv2 cv2_calls observe.

Lemma images_app evs1 evs2 : images (evs1 ++ evs2) = images evs1 ++ images evs2.
Proof. apply flat_map_app. Qed.

Lemma drawn_app color evs1 evs2 :
  drawn color (evs1 ++ evs2) = drawn color evs1 ++ drawn color evs2.
Proof. apply flat_map_app. Qed.

Lemma regions_app evs1 evs2 :
  detect.regions (evs1 ++ evs2) = detect.regions evs1 ++ detect.regions evs2.
Proof. apply flat_map_app. Qed.

Lemma images_box_calls img color coords : images (box_calls img color coords) = [].
Proof. induction coords as [| [[[??]?]?] coords IH]; simpl; done. Qed.

Lemma regions_box_calls img color coords :
  detect.regions (box_calls img color coords) = [].
Proof. induction coords as [| [[[??]?]?] coords IH]; simpl; done. Qed.

Lemma color_eqb_refl c : color_eqb c c = true.
Proof. destruct c as [[c0 c1] c2]. simpl. by rewrite !Z.eqb_refl. Qed.

Lemma drawn_box_calls_same img color coords :
  drawn color (box_calls img color coords) = coords.
Proof.
  induction coords as [| [[[x1 y1] x2] y2] coords IH]; simpl; [done |].
  rewrite color_eqb_refl. simpl. by f_equal.
Qed.

Lemma drawn_box_calls_other img color color' coords :
  color_eqb color' color = false →
  drawn color (box_calls img color' coords) = [].
Proof.
  intros Hne.
  induction coords as [| [[[x1 y1] x2] y2] coords IH]; simpl; [done |].
  by rewrite Hne.
Qed.

End events.

(** ** The two-stage detector *)

Section double_cascade_runs.
Import cv2 cv2_calls observe.
Context `{OpenCV}.

(** The loop over the upper bodies: one classifier call per upper body, on
    the view cut at its corner values, followed by the red boxes of the
    faces found in that view; [rects_face] ends as the faces of the last
    upper body. *)
Lemma for_upperbody_run cascade_face rects frame rects_face σ :
  allocated σ frame →
  ∃ σ' rects_face' evs,
    detect.for_upperbody cascade_face rects frame rects_face σ =
      Some (frame, rects_face', σ') ∧
    extends frame σ σ' evs ∧
    images evs =
      map (fun '(x, y, w, h) => (xml cascade_face, View frame y h x w, (25, 25)))
          rects ∧
    drawn detect.red evs =
      flat_map (fun '(x, y, faces) => map (translate x y) faces)
               (detect.regions evs) ∧
    drawn imgutils.green evs = [] ∧
    rects_face' = default rects_face (snd <$> last (detect.regions evs)).
Proof.
  unfold detect.for_upperbody.
  revert σ rects_face.
  induction rects as [| [[[x y] w] h] rects IH]; intros σ rects_face Ha.
  - exists σ, rects_face, []. split; [done |]. split; [apply extends_refl | done].
  - destruct (allocated_lookup _ _ Ha) as [f Hf].
    set (objects := classify cascade_face (np.slice2 y h x w f) (12 # 10) 3 1 (25, 25)).
    set (ev := detectMultiScale_call (xml cascade_face) (View frame y h x w)
                 (12 # 10) 3 1 (25, 25) objects).
    set (σ1 := {| heap := heap σ; calls := calls σ ++ [ev] |}).
    assert (Hdet : imgutils.detect_pattern (View frame y h x w) cascade_face (25, 25) σ =
                   Some (imgutils.add_origin objects, View frame y h x w, σ1)).
    { refine (detect_pattern_run (I := ndarray) (View frame y h x w) cascade_face
                (25, 25) σ (np.slice2 y h x w f) _).
      unfold as_ndarray, ndarray_image, pixels. by rewrite Hf. }
    assert (Hext1 : extends frame σ σ1 [ev]) by done.
    destruct (for_faces_run x y (imgutils.add_origin objects) frame σ1)
      as (σ2 & Hfaces & Hext2); [done |].
    destruct (IH σ2 (imgutils.add_origin objects))
      as (σ3 & rf' & evs & Hrest & Hext3 & Himg & Hred & Hgreen & Hrf).
    { eapply extends_allocated; [exact Hext2 | done]. }
    exists σ3, rf', ([ev] ++ box_calls frame detect.red
                               (map (translate x y) (imgutils.add_origin objects))
                          ++ evs).
    split; [| split; [| split; [| split; [| split]]]].
    + simpl. erewrite bind_bind_Some by exact Hdet. simpl.
      erewrite bind_bind_Some by exact Hfaces. exact Hrest.
    + eapply extends_trans; [exact Hext1 |].
      eapply extends_trans; [exact Hext2 | exact Hext3].
    + rewrite !images_app, images_box_calls, Himg. done.
    + rewrite !drawn_app, !regions_app, regions_box_calls, flat_map_app.
      rewrite drawn_box_calls_same, Hred. simpl. by rewrite app_nil_r.
    + rewrite !drawn_app, Hgreen, drawn_box_calls_other by done. done.
    + rewrite !regions_app, regions_box_calls.
      change (detect.regions [ev]) with [(x, y, imgutils.add_origin objects)].
      cbn [app]. rewrite Hrf.
      destruct (detect.regions evs) as [| r rs]; [done |].
      rewrite last_cons_cons.
      destruct (last (r :: rs)) eqn:Hlast; [done |].
      by apply last_None in Hlast.
Qed.

End double_cascade_runs.

Section double_cascade_claims.
Import cv2 cv2_calls observe.
Context `{OpenCV}.

(** The whole of [double_cascade]: the upper-body call on the full frame,
    the green boxes, then the loop; [found] and the returned faces are
    computed from the value [rects_face] has when the loop ends. *)
Lemma double_cascade_run frame return_faces cascade_upperbody cascade_face σ f0 :
  heap σ !! frame = Some f0 →
  let objects := classify cascade_upperbody f0 (12 # 10) 3 1 (60, 60) in
  let rects_upperbody := imgutils.add_origin objects in
  ∃ σ' rects_face evs,
    detect.double_cascade frame return_faces cascade_upperbody cascade_face σ =
      Some (frame, (0 <? length rects_face)%nat,
            if return_faces
            then Some (detect.faces_returned rects_face rects_upperbody)
            else None, σ') ∧
    extends frame σ σ'
      ([detectMultiScale_call (xml cascade_upperbody) (Whole frame) (12 # 10) 3 1
          (60, 60) objects]
       ++ box_calls frame imgutils.green rects_upperbody ++ evs) ∧
    images evs =
      map (fun '(x, y, w, h) => (xml cascade_face, View frame y h x w, (25, 25)))
          rects_upperbody ∧
    drawn detect.red evs =
      flat_map (fun '(x, y, faces) => map (translate x y) faces)
               (detect.regions evs) ∧
    drawn imgutils.green evs = [] ∧
    rects_face = default [] (snd <$> last (detect.regions evs)).
Proof.
  intros Hf objects rects_upperbody.
  set (ev := detectMultiScale_call (xml cascade_upperbody) (Whole frame) (12 # 10)
               3 1 (60, 60) objects).
  set (σ1 := {| heap := heap σ; calls := calls σ ++ [ev] |}).
  assert (Hdet : imgutils.detect_pattern frame cascade_upperbody (60, 60) σ =
                 Some (rects_upperbody, frame, σ1)).
  { exact (detect_pattern_run (I := loc) frame cascade_upperbody (60, 60) σ f0 Hf). }
  assert (Hext1 : extends frame σ σ1 [ev]) by done.
  assert (Ha1 : allocated σ1 frame).
  { unfold allocated. simpl. by eapply lookup_lt_Some. }
  destruct (box_run rects_upperbody frame imgutils.green σ1 Ha1)
    as (σ2 & Hbox & Hext2).
  destruct (for_upperbody_run cascade_face rects_upperbody frame [] σ2)
    as (σ3 & rects_face & evs & Hloop & Hext3 & Himg & Hred & Hgreen & Hrf).
  { by eapply extends_allocated. }
  exists σ3, rects_face, evs.
  split; [| split; [| done]].
  - unfold detect.double_cascade.
    erewrite bind_Some by exact Hdet. simpl.
    erewrite bind_Some by exact Hbox.
    assert (Hbranch :
      (if (0 <? length rects_upperbody)%nat
       then detect.for_upperbody cascade_face rects_upperbody frame []
       else ret (frame, [])) σ2 = Some (frame, rects_face, σ3)).
    { destruct rects_upperbody; [exact Hloop | exact Hloop]. }
    erewrite bind_Some by exact Hbranch. simpl.
    destruct rects_face, return_faces; done.
  - eapply extends_trans; [exact Hext1 |].
    eapply extends_trans; [exact Hext2 | exact Hext3].
Qed.

(** [found] tells whether the last upper body has a face. *)
Lemma double_cascade_found_last frame return_faces cascade_upperbody cascade_face σ f0 :
  heap σ !! frame = Some f0 →
  ∃ found faces σ',
    detect.double_cascade frame return_faces cascade_upperbody cascade_face σ =
      Some (frame, found, faces, σ') ∧
    (found = true ↔
     ∃ x y face rest, last (detect.regions (new_calls σ σ')) = Some (x, y, face :: rest)).
Proof.
  intros Hf.
  destruct (double_cascade_run frame return_faces cascade_upperbody cascade_face σ f0 Hf)
    as (σ' & rects_face & evs & Hrun & Hext & _ & _ & _ & Hrf).
  eexists _, _, σ'. split; [exact Hrun |].
  rewrite (extends_new_calls _ _ _ _ Hext).
  rewrite !regions_app, regions_box_calls. simpl.
  rewrite Hrf. destruct (last (detect.regions evs)) as [[[x y] faces] |]; simpl.
  - destruct faces as [| face rest]; simpl.
    + split; [done | intros (? & ? & ? & ? & ?); done].
    + split; [eauto | done].
  - split; [done | intros (? & ? & ? & ? & ?); done].
Qed.

End double_cascade_claims.

(** ** The claims on the two-stage detector *)

Section double_cascade_theorems.
Import cv2 cv2_calls observe.

(** C1 (the code departs from the claim).  On a frame with two upper
    bodies where only the first one holds a face, the face is found and
    drawn in red, and yet [found] is false: [rects_face] is assigned anew
    for every upper body, so only the last one counts. *)
Theorem double_cascade_found_ignores_earlier_faces :
  examples.outcome (examples.two_bodies false) =
    Some (0%nat, false, None,
          [detectMultiScale_call (xml doubles.CASCADE_UPPERBODY) (Whole 0%nat)
             (12 # 10) 3 1 (60, 60) [(10, 10, 70, 70); (100, 10, 70, 70)];
           rectangle_call 0%nat (10, 10) (80, 80) (0, 255, 0) 2;
           rectangle_call 0%nat (100, 10) (170, 80) (0, 255, 0) 2;
           detectMultiScale_call (xml doubles.CASCADE_FACE) (View 0%nat 10 80 10 80)
             (12 # 10) 3 1 (25, 25) [(15, 5, 30, 30)];
           rectangle_call 0%nat (25, 15) (55, 45) (0, 0, 255) 2;
           detectMultiScale_call (xml doubles.CASCADE_FACE) (View 0%nat 10 80 100 170)
             (12 # 10) 3 1 (25, 25) []]).
Proof. vm_compute. reflexivity. Qed.

(** C2 (the code departs from the claim).  On the same frame, with
    [return_faces] set: one face was found, there are two upper bodies, and
    the returned sequence is empty instead of holding 1 * 2 elements. *)
Theorem double_cascade_returns_faces_of_last_body_only :
  match examples.outcome (examples.two_bodies true) with
  | Some (_, _, returned, evs) =>
      returned = Some [] ∧
      examples.all_faces evs = [(15, 5, 45, 35)] ∧
      drawn imgutils.green evs = [(10, 10, 80, 80); (100, 10, 170, 80)]
  | None => False
  end.
Proof. vm_compute. done. Qed.

End double_cascade_theorems.

Section crop_and_conversion.
Import cv2 cv2_calls observe.

(** C4.  The classifier is called once on the full frame and then, for
    every upper body (x, y, w, h) in turn, on the view [frame[y:h, x:w]]:
    the third and fourth components are the end bounds of the cut.  Such a
    view holds the pixels of rows [y, h) and columns [x, w) of the frame:
    its pixel (i, j) is the frame's pixel (y + i, x + j). *)
Theorem double_cascade_crops_at_corner_values `{OpenCV}
    frame return_faces cascade_upperbody cascade_face σ f0 :
  heap σ !! frame = Some f0 →
  ∃ r σ',
    detect.double_cascade frame return_faces cascade_upperbody cascade_face σ =
      Some (r, σ') ∧
    images (new_calls σ σ') =
      (xml cascade_upperbody, Whole frame, (60, 60)) ::
      map (fun '(x, y, w, h) => (xml cascade_face, View frame y h x w, (25, 25)))
          (imgutils.add_origin (classify cascade_upperbody f0 (12 # 10) 3 1 (60, 60))) ∧
    ∀ (hp : list Frame) (f : Frame) x y w h,
      hp !! frame = Some f → 0 <= x → 0 <= y → 0 <= w → 0 <= h →
      ∃ sub : Frame,
        pixels (View frame y h x w) hp = Some sub ∧
        ∀ i j : nat,
          sub !! i ≫= (.!! j) =
            if decide (y + Z.of_nat i < h ∧ x + Z.of_nat j < w)
            then f !! (Z.to_nat y + i)%nat ≫= (.!! (Z.to_nat x + j)%nat)
            else None.
Proof.
  intros Hf.
  destruct (double_cascade_run frame return_faces cascade_upperbody cascade_face σ f0 Hf)
    as (σ' & rects_face & evs & Hrun & Hext & Himg & _).
  eexists _, σ'. split; [exact Hrun |]. split.
  - rewrite (extends_new_calls _ _ _ _ Hext).
    rewrite !images_app, images_box_calls, Himg. done.
  - intros hp f x y w h Hhp Hx Hy Hw Hh.
    exists (np.slice2 y h x w f). split.
    + simpl. by rewrite Hhp.
    + intros i j. by apply slice2_lookup.
Qed.

Lemma double_cascade_crops_at_corner_values_witness :
  heap (doubles.world_of [doubles.two_bodies_one_face]) !! 0%nat =
    Some doubles.two_bodies_one_face ∧
  ∃ r σ',
    @detect.double_cascade doubles.opencv 0%nat false doubles.CASCADE_UPPERBODY
      doubles.CASCADE_FACE (doubles.world_of [doubles.two_bodies_one_face]) =
      Some (r, σ') ∧
    images (new_calls (doubles.world_of [doubles.two_bodies_one_face]) σ') =
      (xml doubles.CASCADE_UPPERBODY, Whole 0%nat, (60, 60)) ::
      map (fun '(x, y, w, h) => (xml doubles.CASCADE_FACE, View 0%nat y h x w, (25, 25)))
          (imgutils.add_origin
             (classify doubles.CASCADE_UPPERBODY doubles.two_bodies_one_face
                (12 # 10) 3 1 (60, 60))) ∧
    ∀ (hp : list Frame) (f : Frame) x y w h,
      hp !! 0%nat = Some f → 0 <= x → 0 <= y → 0 <= w → 0 <= h →
      ∃ sub : Frame,
        pixels (View 0%nat y h x w) hp = Some sub ∧
        ∀ i j : nat,
          sub !! i ≫= (.!! j) =
            if decide (y + Z.of_nat i < h ∧ x + Z.of_nat j < w)
            then f !! (Z.to_nat y + i)%nat ≫= (.!! (Z.to_nat x + j)%nat)
            else None.
Proof.
  split; [reflexivity |].
  apply (double_cascade_crops_at_corner_values (H := doubles.opencv)
           0%nat false doubles.CASCADE_UPPERBODY doubles.CASCADE_FACE
           (doubles.world_of [doubles.two_bodies_one_face])
           doubles.two_bodies_one_face).
  reflexivity.
Defined.

End crop_and_conversion.

Section detect_pattern_claims.
Import cv2 cv2_calls observe.

(** C5.  On any readable image [detect_pattern] returns, without error
    and without touching the store: every rectangle (x, y, width, height)
    of the classifier as (x, y, width + x, height + y), the sums being
    those of the array elements, that is (x, y, x + width, y + height)
    when they are 32-bit numbers; and the empty sequence when the
    classifier reports nothing. *)
Theorem detect_pattern_corner_form {I} `{ImageLike I}
    (img : I) cascade min_rectangle σ (f : Frame) :
  pixels (as_ndarray img) (heap σ) = Some f →
  ∃ rects σ',
    imgutils.detect_pattern img cascade min_rectangle σ = Some (rects, img, σ') ∧
    heap σ' = heap σ ∧
    rects = map (fun '(x, y, w, h) => (x, y, np.add w x, np.add h y))
                (classify cascade f (12 # 10) 3 1 min_rectangle) ∧
    (Forall (fun '(x, y, w, h) => np.int32 (x + w) ∧ np.int32 (y + h))
            (classify cascade f (12 # 10) 3 1 min_rectangle) →
     rects = map (fun '(x, y, w, h) => (x, y, x + w, y + h))
                 (classify cascade f (12 # 10) 3 1 min_rectangle)) ∧
    (classify cascade f (12 # 10) 3 1 min_rectangle = [] → rects = []).
Proof.
  intros Hf. eexists _, _.
  split; [by apply detect_pattern_run |].
  split; [done |]. split; [done |]. split.
  - unfold imgutils.add_origin.
    induction (classify cascade f (12 # 10) 3 1 min_rectangle)
      as [| [[[x y] w] h] rects IH]; intros Hall; [done |].
    apply Forall_cons in Hall as [[Hw Hh] Hall]. simpl.
    rewrite IH by done.
    rewrite !add_int32 by (by rewrite Z.add_comm).
    by rewrite (Z.add_comm w x), (Z.add_comm h y).
  - by intros ->.
Qed.

Lemma detect_pattern_corner_form_witness :
  pixels (as_ndarray 0%nat) (heap (doubles.world_of [doubles.two_bodies_one_face])) =
    Some doubles.two_bodies_one_face ∧
  ∃ rects σ',
    imgutils.detect_pattern 0%nat doubles.CASCADE_UPPERBODY (60, 60)
      (doubles.world_of [doubles.two_bodies_one_face]) = Some (rects, 0%nat, σ') ∧
    heap σ' = heap (doubles.world_of [doubles.two_bodies_one_face]) ∧
    rects = map (fun '(x, y, w, h) => (x, y, np.add w x, np.add h y))
                (classify doubles.CASCADE_UPPERBODY doubles.two_bodies_one_face
                   (12 # 10) 3 1 (60, 60)) ∧
    (Forall (fun '(x, y, w, h) => np.int32 (x + w) ∧ np.int32 (y + h))
            (classify doubles.CASCADE_UPPERBODY doubles.two_bodies_one_face
               (12 # 10) 3 1 (60, 60)) →
     rects = map (fun '(x, y, w, h) => (x, y, x + w, y + h))
                 (classify doubles.CASCADE_UPPERBODY doubles.two_bodies_one_face
                    (12 # 10) 3 1 (60, 60))) ∧
    (classify doubles.CASCADE_UPPERBODY doubles.two_bodies_one_face
       (12 # 10) 3 1 (60, 60) = [] → rects = []).
Proof.
  split; [reflexivity |].
  apply (detect_pattern_corner_form (I := loc) 0%nat doubles.CASCADE_UPPERBODY (60, 60)
           (doubles.world_of [doubles.two_bodies_one_face])
           doubles.two_bodies_one_face).
  reflexivity.
Defined.

End detect_pattern_claims.

(** ** The motion detector *)

Section motion_detection_runs.
Import cv2 cv2_calls observe motion.
Context `{OpenCV}.

Lemma Qltb_false_iff a b : detect.Qltb a b = false ↔ (b <= a)%Q.
Proof.
  unfold detect.Qltb. rewrite negb_false_iff. apply Qle_bool_iff.
Qed.

(** The test the loop makes on a contour. *)
Lemma kept_test min_area max_area c :
  kept min_area max_area c ↔
  detect.Qltb (contourArea c) min_area = false ∧
  detect.Qltb max_area (inject_Z (bbox_area c)) = false.
Proof. unfold kept. by rewrite !Qltb_false_iff. Qed.

(** The loop over the contours (lines 97-106). *)
Lemma motion_loop_run frame min_area max_area cnts found σ f :
  heap σ !! frame = Some f →
  ∃ σ',
    for_ cnts
      (fun c found =>
         if detect.Qltb (contourArea c) min_area then ret found
         else
           let '(x, y, w, h) := boundingRect c in
           if detect.Qltb max_area (inject_Z (w * h)) then ret found
           else
             bind (rectangle frame (x, y) (x + w, y + h) (0, 255, 0) 2)
                  (fun _ => ret true))
      found σ =
      Some (found || bool_decide (Exists (kept min_area max_area) cnts), σ') ∧
    extends frame σ σ' (map (box_call frame) (filter (kept min_area max_area) cnts)) ∧
    heap σ' !! frame =
      Some (fold_left paint (filter (kept min_area max_area) cnts) f).
Proof.
  revert found σ f.
  induction cnts as [| c cnts IH]; intros found σ f Hf.
  - exists σ. split; [| split; [apply extends_refl | done]].
    simpl. unfold ret. by rewrite orb_false_r.
  - pose proof (kept_test min_area max_area c) as Htest.
    unfold bbox_area in Htest.
    rewrite filter_cons. simpl for_.
    destruct (decide (kept min_area max_area c)) as [Hk | Hk].
    + destruct Htest as [[Ha Hb] _]; [done |].
      unfold box_call, paint. simpl.
      destruct (boundingRect c) as [[[x y] w] h] eqn:Hbr.
      destruct (rectangle_extends frame (x, y) (x + w, y + h) (0, 255, 0) 2 σ)
        as (σ1 & Hrun & Hext1); [by eapply lookup_lt_Some |].
      assert (Hf1 : heap σ1 !! frame =
                    Some (draw_rectangle f (x, y) (x + w, y + h) (0, 255, 0) 2)).
      { rewrite (rectangle_run _ _ _ _ _ _ f Hf) in Hrun.
        injection Hrun as <-. simpl.
        apply list_lookup_insert_eq. by eapply lookup_lt_Some. }
      destruct (IH true σ1 _ Hf1) as (σ2 & Hloop & Hext2 & Hf2).
      exists σ2. split; [| split].
      * unfold bind at 1. rewrite Ha, Hb.
        unfold bind at 1. rewrite Hrun. unfold ret at 1.
        rewrite Hloop. f_equal. f_equal.
        rewrite (bool_decide_eq_true_2 (Exists _ (c :: cnts))).
        -- by rewrite orb_true_r.
        -- by apply Exists_cons_hd.
      * apply (extends_trans _ _ _ _ [_] _ Hext1 Hext2).
      * exact Hf2.
    + destruct (IH found σ f Hf) as (σ2 & Hloop & Hext2 & Hf2).
      exists σ2. split; [| split; [exact Hext2 | exact Hf2]].
      assert (Hskip :
        (if detect.Qltb (contourArea c) min_area then ret found
         else
           let '(x, y, w, h) := boundingRect c in
           if detect.Qltb max_area (inject_Z (w * h)) then ret found
           else
             bind (rectangle frame (x, y) (x + w, y + h) (0, 255, 0) 2)
                  (fun _ => ret true)) σ = Some (found, σ)).
      { destruct (detect.Qltb (contourArea c) min_area) eqn:Ha; [done |].
        destruct (boundingRect c) as [[[x y] w] h].
        destruct (detect.Qltb max_area (inject_Z (w * h))) eqn:Hb; [done |].
        exfalso. apply Hk, Htest. done. }
      unfold bind at 1. rewrite Hskip, Hloop. f_equal. f_equal. f_equal.
      apply bool_decide_ext. rewrite Exists_cons. tauto.
Qed.

End motion_detection_runs.

Section motion_detection_claims.
Import cv2 cv2_calls observe motion.
Context `{OpenCV}.

(** The boxes drawn do not depend on where the frame is stored. *)
Lemma drawn_box_call frame cs :
  drawn (0, 255, 0) (map (box_call frame) cs) =
    map (fun c => let '(x, y, w, h) := boundingRect c in (x, y, x + w, y + h)) cs.
Proof.
  induction cs as [| c cs IH]; [done |].
  simpl. unfold box_call at 1.
  destruct (boundingRect c) as [[[x y] w] h]. simpl. by rewrite IH.
Qed.

Lemma cvtColor_run src σ (f : Frame) :
  heap σ !! src = Some f → detect.cvtColor src σ = Some (cvtColor_BGR2GRAY f, σ).
Proof. intros Hf. unfold detect.cvtColor, bind, read. simpl. by rewrite Hf. Qed.

(** The whole of [motion_detection]. *)
Lemma motion_detection_run frame first_frame thresh it min_area max_area σ
    (f g : Frame) :
  heap σ !! frame = Some f →
  heap σ !! first_frame = Some g →
  let cnts := contours f g thresh it in
  let boxed := filter (kept min_area max_area) cnts in
  ∃ σ',
    detect.motion_detection frame first_frame thresh it min_area max_area σ =
      Some (frame, length (heap σ),
            bool_decide (Exists (kept min_area max_area) cnts), σ') ∧
    calls σ' = calls σ ++ map (box_call frame) boxed ∧
    heap σ' !! frame = Some (fold_left paint boxed f) ∧
    heap σ' !! length (heap σ) = Some f ∧
    ∀ l, l ≠ frame → (l < length (heap σ))%nat → heap σ' !! l = heap σ !! l.
Proof.
  intros Hf Hg cnts boxed.
  set (σ1 := {| heap := heap σ ++ [f]; calls := calls σ |}).
  assert (Hcopy : copy frame σ = Some (length (heap σ), σ1)).
  { unfold copy. by rewrite Hf. }
  assert (Hf1 : heap σ1 !! frame = Some f) by (by apply lookup_app_l_Some).
  assert (Hg1 : heap σ1 !! first_frame = Some g) by (by apply lookup_app_l_Some).
  destruct (motion_loop_run frame min_area max_area cnts false σ1 f Hf1)
    as (σ2 & Hloop & (Hcalls & Hlen & Hother) & Hframe).
  exists σ2. split; [| split; [exact Hcalls | split; [exact Hframe | split]]].
  - unfold detect.motion_detection.
    erewrite bind_Some by exact Hcopy.
    erewrite bind_Some by (exact (cvtColor_run _ _ _ Hg1)).
    erewrite bind_Some by (exact (cvtColor_run _ _ _ Hf1)).
    erewrite bind_Some by exact Hloop. done.
  - rewrite Hother.
    + simpl. rewrite lookup_app_r by done. by rewrite Nat.sub_diag.
    + apply lookup_lt_Some in Hf. lia.
  - intros l Hne Hl. rewrite Hother by done. simpl. by apply lookup_app_l.
Qed.

End motion_detection_claims.

Section motion_detection_theorems.
Import cv2 cv2_calls observe motion.

(** C6.  The boxes drawn are those of the contours whose area is at least
    [min_area] and whose bounding box has an area of at most [max_area],
    one box per such contour and in their order; nothing is drawn for the
    others; and [found] is set exactly when there is such a contour. *)
Theorem motion_detection_boxes_kept_contours `{OpenCV}
    frame first_frame thresh it min_area max_area σ (f g : Frame) :
  heap σ !! frame = Some f →
  heap σ !! first_frame = Some g →
  ∃ raw_frame found σ',
    detect.motion_detection frame first_frame thresh it min_area max_area σ =
      Some (frame, raw_frame, found, σ') ∧
    new_calls σ σ' =
      map (box_call frame)
          (filter (kept min_area max_area) (contours f g thresh it)) ∧
    (found = true ↔
     ∃ c, c ∈ contours f g thresh it ∧
          (min_area <= contourArea c)%Q ∧ (inject_Z (bbox_area c) <= max_area)%Q).
Proof.
  intros Hf Hg.
  destruct (motion_detection_run frame first_frame thresh it min_area max_area σ f g
              Hf Hg) as (σ' & Hrun & Hcalls & _).
  eexists _, _, σ'. split; [exact Hrun |]. split.
  - unfold new_calls. rewrite Hcalls. by rewrite drop_app_length.
  - rewrite bool_decide_eq_true, Exists_exists. done.
Qed.

Lemma motion_detection_boxes_kept_contours_witness :
  heap (doubles.world_of [doubles.moved; doubles.still]) !! 0%nat = Some doubles.moved ∧
  heap (doubles.world_of [doubles.moved; doubles.still]) !! 1%nat = Some doubles.still ∧
  ∃ raw_frame found σ',
    @detect.motion_detection doubles.opencv 0%nat 1%nat 10 35 200 245760
      (doubles.world_of [doubles.moved; doubles.still]) =
      Some (0%nat, raw_frame, found, σ') ∧
    new_calls (doubles.world_of [doubles.moved; doubles.still]) σ' =
      map (@box_call doubles.opencv 0%nat)
          (filter (@kept doubles.opencv 200 245760)
                  (@contours doubles.opencv doubles.moved doubles.still 10 35)) ∧
    (found = true ↔
     ∃ c, c ∈ @contours doubles.opencv doubles.moved doubles.still 10 35 ∧
          (200 <= @contourArea doubles.opencv c)%Q ∧
          (inject_Z (@bbox_area doubles.opencv c) <= 245760)%Q).
Proof.
  split; [reflexivity |]. split; [reflexivity |].
  apply (motion_detection_boxes_kept_contours (H := doubles.opencv)
           0%nat 1%nat 10 35 200 245760
           (doubles.world_of [doubles.moved; doubles.still])
           doubles.moved doubles.still); reflexivity.
Defined.

(** C7.  The second value returned is a new array, distinct from the frame
    and from every array there was, holding the pixels the frame had when
    the call was made, whatever is drawn on the frame; the arrays other
    than the frame are left as they were; and what the call returns and
    draws is decided by the pixels of its two images alone, not by
    anything an earlier call left behind. *)
Theorem motion_detection_returns_untouched_copy `{OpenCV}
    frame first_frame thresh it min_area max_area σ (f g : Frame) :
  heap σ !! frame = Some f →
  heap σ !! first_frame = Some g →
  ∃ raw_frame found σ',
    detect.motion_detection frame first_frame thresh it min_area max_area σ =
      Some (frame, raw_frame, found, σ') ∧
    heap σ' !! raw_frame = Some f ∧
    raw_frame ≠ frame ∧
    heap σ !! raw_frame = None ∧
    (∀ l, l ≠ frame → is_Some (heap σ !! l) → heap σ' !! l = heap σ !! l) ∧
    ∀ τ frame2 first_frame2,
      heap τ !! frame2 = Some f →
      heap τ !! first_frame2 = Some g →
      ∃ raw_frame2 τ',
        detect.motion_detection frame2 first_frame2 thresh it min_area max_area τ =
          Some (frame2, raw_frame2, found, τ') ∧
        heap τ' !! raw_frame2 = Some f ∧
        heap τ' !! frame2 = heap σ' !! frame ∧
        drawn (0, 255, 0) (new_calls τ τ') = drawn (0, 255, 0) (new_calls σ σ').
Proof.
  intros Hf Hg.
  destruct (motion_detection_run frame first_frame thresh it min_area max_area σ f g
              Hf Hg) as (σ' & Hrun & Hcalls & Hframe & Hraw & Hother).
  eexists _, _, σ'. split; [exact Hrun |].
  split; [exact Hraw |].
  split; [apply lookup_lt_Some in Hf; lia |].
  split; [by apply lookup_ge_None_2 |].
  split.
  - intros l Hne Hl. apply Hother; [done |]. by apply lookup_lt_is_Some_1.
  - intros τ frame2 first_frame2 Hf2 Hg2.
    destruct (motion_detection_run frame2 first_frame2 thresh it min_area max_area
                τ f g Hf2 Hg2) as (τ' & Hrun2 & Hcalls2 & Hframe2 & Hraw2 & _).
    eexists _, τ'. split; [exact Hrun2 |].
    split; [exact Hraw2 |].
    split; [by rewrite Hframe2, Hframe |].
    unfold new_calls. rewrite Hcalls, Hcalls2, !drop_app_length.
    by rewrite !drawn_box_call.
Qed.

Lemma motion_detection_returns_untouched_copy_witness :
  heap (doubles.world_of [doubles.moved; doubles.still]) !! 0%nat = Some doubles.moved ∧
  heap (doubles.world_of [doubles.moved; doubles.still]) !! 1%nat = Some doubles.still ∧
  ∃ raw_frame found σ',
    @detect.motion_detection doubles.opencv 0%nat 1%nat 10 35 200 245760
      (doubles.world_of [doubles.moved; doubles.still]) =
      Some (0%nat, raw_frame, found, σ') ∧
    heap σ' !! raw_frame = Some doubles.moved ∧
    raw_frame ≠ 0%nat ∧
    heap (doubles.world_of [doubles.moved; doubles.still]) !! raw_frame = None ∧
    (∀ l, l ≠ 0%nat →
          is_Some (heap (doubles.world_of [doubles.moved; doubles.still]) !! l) →
          heap σ' !! l = heap (doubles.world_of [doubles.moved; doubles.still]) !! l) ∧
    ∀ τ frame2 first_frame2,
      heap τ !! frame2 = Some doubles.moved →
      heap τ !! first_frame2 = Some doubles.still →
      ∃ raw_frame2 τ',
        @detect.motion_detection doubles.opencv frame2 first_frame2 10 35 200 245760 τ =
          Some (frame2, raw_frame2, found, τ') ∧
        heap τ' !! raw_frame2 = Some doubles.moved ∧
        heap τ' !! frame2 = heap σ' !! 0%nat ∧
        drawn (0, 255, 0) (new_calls τ τ') =
          drawn (0, 255, 0)
                (new_calls (doubles.world_of [doubles.moved; doubles.still]) σ').
Proof.
  split; [reflexivity |]. split; [reflexivity |].
  apply (motion_detection_returns_untouched_copy (H := doubles.opencv)
           0%nat 1%nat 10 35 200 245760
           (doubles.world_of [doubles.moved; doubles.still])
           doubles.moved doubles.still); reflexivity.
Defined.

End motion_detection_theorems.

(** ** The sound categorizer *)

Section soundcat_runs.
Import soundcat sounds later.

Lemma Qgtb_false_iff a b : Qgtb a b = false ↔ (a <= b)%Q.
Proof. unfold Qgtb. rewrite negb_false_iff. apply Qle_bool_iff. Qed.

Lemma Qgtb_true_iff a b : Qgtb a b = true ↔ (b < a)%Q.
Proof.
  unfold Qgtb. rewrite negb_true_iff. split.
  - intros Hf. apply Qnot_le_lt. intros Hle.
    apply Qle_bool_iff in Hle. congruence.
  - intros Hlt. destruct (Qle_bool a b) eqn:Hb; [| done].
    apply Qle_bool_iff in Hb. exfalso. by apply (Qlt_not_le b a).
Qed.

(** The entries kept are those that end in [.wav], in listing order. *)
Lemma wav_entries_filter entries :
  wav_entries entries = List.filter (fun entry => endswith entry ".wav") entries.
Proof.
  unfold wav_entries.
  assert (Hgen : ∀ acc,
    fold_left (fun sounds entry =>
                 if endswith entry ".wav" then sounds ++ [entry] else sounds)
              entries acc =
    acc ++ List.filter (fun entry => endswith entry ".wav") entries).
  { induction entries as [| e entries IH]; intros acc; simpl.
    - by rewrite app_nil_r.
    - rewrite IH. destruct (endswith e ".wav"); [| done].
      by rewrite <- app_assoc. }
  apply (Hgen []).
Qed.

(** What [play] does once it has decided to speak. *)
Lemma play_speaks `{Rounding} self category_name w :
  play self category_name false w =
    match _categories self !! category_name with
    | None => (inl (KeyError category_name), w)
    | Some directory =>
        match listdir w directory with
        | None => (inl (OSError directory), w)
        | Some entries =>
            match wav_entries entries with
            | [] => (inl (ValueError (empty_range 0 0)), w)
            | sound0 :: sounds =>
                let i := (Z.of_nat (random w (draws w))
                            mod Z.of_nat (length (sound0 :: sounds)))%Z in
                let path := join_slash directory
                              (nth (Z.to_nat i) (sound0 :: sounds) ""%string) in
                if mixer w && loadable w path
                then
                  (inr {| _categories := _categories self; pps := pps self;
                          _last_play_time := clock w (ticks w) |},
                   {| clock := clock w; ticks := S (ticks w); random := random w;
                      draws := S (draws w); listdir := listdir w;
                      loadable := loadable w; mixer := mixer w;
                      audio := (audio w ++ [Sound_load path]) ++ [Sound_play path] |})
                else
                  (inl (pygame_error path),
                   {| clock := clock w; ticks := ticks w; random := random w;
                      draws := S (draws w); listdir := listdir w;
                      loadable := loadable w; mixer := mixer w;
                      audio := audio w |})
            end
        end
    end.
Proof.
  unfold play, bind, getitem, os_listdir, randrange, mixer_Sound, Sound_play_,
    emit, time_time, ret, raise. cbn [negb].
  destruct (_categories self !! category_name) as [directory |]; [| done].
  destruct (listdir w directory) as [entries |]; [| done].
  destruct (wav_entries entries) as [| sound0 sounds]; [done |]. simpl.
  destruct (mixer w && loadable w _); done.
Qed.

(** With rate limiting on: the clock is read, and [play] speaks when more
    than [1 / pps] seconds have passed since the last play. *)
Lemma play_rate_limited `{Rounding} self category_name w :
  play self category_name true w =
    if Qeq_bool (pps self) 0 then (inl ZeroDivisionError, tick w)
    else if Qgtb (round (clock w (ticks w) - _last_play_time self))
                 (round (1 / pps self))
         then play self category_name false (tick w)
         else (inr self, tick w).
Proof.
  unfold play, bind, truediv, float_sub, time_time, tick, raise, ret. simpl.
  destruct (Qeq_bool (pps self) 0); [done |]. simpl.
  destruct (Qgtb _ _); done.
Qed.

End soundcat_runs.

Section soundcat_outcomes.
Import soundcat sounds later.

Lemma new_audio_app w w' evs : audio w' = audio w ++ evs → new_audio w w' = evs.
Proof. intros Heq. unfold new_audio. rewrite Heq. by rewrite drop_app_length. Qed.

Lemma new_audio_same w w' : audio w' = audio w → new_audio w w' = [].
Proof. intros Heq. apply new_audio_app. by rewrite app_nil_r. Qed.

(** A call of [play] without rate limiting either plays one sample, and
    then sets the timestamp to the next reading of the clock, or raises
    and leaves the world as it is. *)
Lemma play_speaks_outcome `{Rounding} self category_name w r w' :
  play self category_name false w = (r, w') →
  clock w' = clock w ∧
  ((audio w' = audio w ∧ ticks w' = ticks w ∧ ∃ e, r = inl e) ∨
   (∃ p self',
      r = inr self' ∧
      audio w' = audio w ++ [Sound_load p; Sound_play p] ∧
      ticks w' = S (ticks w) ∧
      _last_play_time self' = clock w (ticks w) ∧
      pps self' = pps self ∧
      _categories self' = _categories self)).
Proof.
  rewrite play_speaks.
  destruct (_categories self !! category_name) as [directory |].
  2: { intros [= <- <-]. split; [done |]. left. eauto. }
  destruct (listdir w directory) as [entries |].
  2: { intros [= <- <-]. split; [done |]. left. eauto. }
  destruct (wav_entries entries) as [| sound0 sounds].
  { intros [= <- <-]. split; [done |]. left. eauto. }
  cbn zeta. destruct (mixer w && loadable w _).
  2: { intros [= <- <-]. split; [done |]. left. simpl. eauto. }
  intros [= <- <-]. split; [done |]. right.
  eexists _, _. split; [done |]. simpl.
  split; [by rewrite <- app_assoc | done].
Qed.

(** A call of [play] with rate limiting reads the clock once and is then
    silent, or plays one sample and reads the clock again for the
    timestamp; it plays only if more than [1 / pps] seconds have passed. *)
Lemma play_rate_limited_outcome `{Rounding} self category_name w r w' :
  play self category_name true w = (r, w') →
  clock w' = clock w ∧
  ((audio w' = audio w ∧ after self r = self ∧ ticks w' = S (ticks w)) ∨
   (∃ p self',
      r = inr self' ∧
      audio w' = audio w ++ [Sound_load p; Sound_play p] ∧
      ticks w' = S (S (ticks w)) ∧
      _last_play_time self' = clock w (S (ticks w)) ∧
      pps self' = pps self ∧
      _categories self' = _categories self ∧
      Qeq_bool (pps self) 0 = false ∧
      (round (1 / pps self) < round (clock w (ticks w) - _last_play_time self))%Q)).
Proof.
  rewrite play_rate_limited.
  destruct (Qeq_bool (pps self) 0) eqn:Hpps.
  { intros [= <- <-]. split; [done |]. left. done. }
  destruct (Qgtb _ _) eqn:Hgt.
  2: { intros [= <- <-]. split; [done |]. left. done. }
  intros Hplay. apply play_speaks_outcome in Hplay as [Hclock Hplay].
  split; [done |].
  destruct Hplay as [(Haudio & Hticks & [e ->]) |
                     (p & self' & -> & Haudio & Hticks & Hlast & Hpps' & Hcats)].
  - left. done.
  - right. exists p, self'. repeat split; try done.
    by apply Qgtb_true_iff.
Qed.

(** A call made at most [1 / pps] seconds after the last play is silent. *)
Lemma play_suppressed `{Rounding} self category_name w :
  Qeq_bool (pps self) 0 = false →
  (clock w (ticks w) - _last_play_time self <= 1 / pps self)%Q →
  play self category_name true w = (inr self, tick w).
Proof.
  intros Hpps Hle. rewrite play_rate_limited, Hpps.
  apply round_mono, Qgtb_false_iff in Hle. by rewrite Hle.
Qed.

Lemma add_categories_run self regs w :
  ∃ self', add_categories self regs w = (inr self', w) ∧
           pps self' = pps self ∧ _last_play_time self' = _last_play_time self.
Proof.
  revert self. induction regs as [| [name directory] regs IH]; intros self.
  - by exists self.
  - simpl. unfold bind, add_category, ret. simpl.
    destruct (IH {| _categories := <[name := directory]> (_categories self);
                    pps := pps self;
                    _last_play_time := _last_play_time self |})
      as (self' & Hrun & Hpps & Hlast).
    exists self'. done.
Qed.

End soundcat_outcomes.

Section soundcat_theorems.
Import soundcat sounds later.

(** C8, as stated, fails: on an object just made, with the default [pps]
    of 0.1, two calls of [play] on a registered category one second apart
    (1 < 1 / 0.1) play nothing at all, not one sample. *)
Lemma play_twice_just_after_construction_plays_nothing :
  match setup world0 with
  | (inr self, w) =>
      let '(r1, w1) := play self "alarm" true w in
      let '(r2, w2) := play (after self r1) "alarm" true w1 in
      _categories self !! "alarm"%string = Some "/sounds/alarm"%string ∧
      (clock w (ticks w1) - clock w (ticks w) < 1 / pps self)%Q ∧
      plays (new_audio w w2) = 0%nat ∧
      plays (new_audio w w2) ≠ 1%nat
  | (inl _, _) => False
  end.
Proof. vm_compute. repeat split; done. Qed.

(** C8, amended.  With rate limiting on and a clock that does not run
    backwards, two calls of [play] less than [1 / pps] seconds apart play
    at most one sample, each loaded once: when the first call plays, the
    second one is silent.  A call that plays nothing leaves the timestamp
    as it was. *)
Theorem play_twice_plays_at_most_once `{Rounding}
    self category_name w r1 w1 r2 w2 :
  (∀ n, clock w n <= clock w (S n))%Q →
  play self category_name true w = (r1, w1) →
  play (after self r1) category_name true w1 = (r2, w2) →
  (clock w (ticks w1) - clock w (ticks w) < 1 / pps self)%Q →
  (plays (new_audio w w2) <= 1)%nat ∧
  loads (new_audio w w2) = plays (new_audio w w2) ∧
  (plays (new_audio w w1) = 1%nat → plays (new_audio w1 w2) = 0%nat) ∧
  (plays (new_audio w w1) = 0%nat →
   _last_play_time (after self r1) = _last_play_time self) ∧
  (plays (new_audio w1 w2) = 0%nat →
   _last_play_time (after (after self r1) r2) = _last_play_time (after self r1)).
Proof.
  intros Hmono Hplay1 Hplay2 Hclose.
  apply play_rate_limited_outcome in Hplay1 as [Hclock1 Hout1].
  destruct Hout1 as [(Haudio1 & Hself1 & Hticks1) |
                     (p & self1 & -> & Haudio1 & Hticks1 & Hlast1 & Hpps1 & Hcats1
                        & Hpps & Hgt)].
  - (* the first call is silent *)
    rewrite Hself1 in *.
    apply play_rate_limited_outcome in Hplay2 as [Hclock2 Hout2].
    destruct Hout2 as [(Haudio2 & Hself2 & Hticks2) |
                       (q & self2 & -> & Haudio2 & Hticks2 & Hlast2 & _)].
    + rewrite (new_audio_same w w2) by congruence.
      rewrite (new_audio_same w w1), (new_audio_same w1 w2) by done.
      rewrite Hself2. repeat split; cbn; try done; lia.
    + rewrite (new_audio_app w w2 [Sound_load q; Sound_play q]) by congruence.
      rewrite (new_audio_same w w1) by done.
      rewrite (new_audio_app w1 w2 [Sound_load q; Sound_play q]) by done.
      repeat split; cbn; try done; lia.
  - (* the first call plays: the second one comes too early *)
    simpl in Hplay2.
    rewrite play_suppressed in Hplay2.
    + injection Hplay2 as <- <-.
      rewrite (new_audio_app w (tick w1) [Sound_load p; Sound_play p]) by done.
      rewrite (new_audio_app w w1 [Sound_load p; Sound_play p]) by done.
      rewrite (new_audio_same w1 (tick w1)) by done.
      repeat split; cbn; try done; lia.
    + by rewrite Hpps1.
    + rewrite Hpps1, Hlast1, Hclock1.
      pose proof (Hmono (ticks w)) as Hstep.
      lra.
Qed.

Lemma play_twice_plays_at_most_once_witness :
  (∀ n, clock world100 n <= clock world100 (S n))%Q ∧
  play self100 "alarm" true world100 =
    (fst (play self100 "alarm" true world100),
     snd (play self100 "alarm" true world100)) ∧
  (clock world100 (ticks (snd (play self100 "alarm" true world100)))
     - clock world100 (ticks world100) < 1 / pps self100)%Q ∧
  plays (new_audio world100 (snd (play self100 "alarm" true world100))) = 1%nat ∧
  (plays (new_audio world100
            (snd (play (after self100 (fst (play self100 "alarm" true world100)))
                    "alarm" true (snd (play self100 "alarm" true world100)))))
     <= 1)%nat.
Proof.
  assert (Hmono : (∀ n, clock world100 n <= clock world100 (S n))%Q).
  { intros n. unfold world100, Qle. simpl. lia. }
  assert (Hclose :
    (clock world100 (ticks (snd (play self100 "alarm" true world100)))
       - clock world100 (ticks world100) < 1 / pps self100)%Q).
  { vm_compute. reflexivity. }
  split; [exact Hmono |]. split; [by destruct (play self100 "alarm" true world100) |].
  split; [exact Hclose |]. split; [vm_compute; reflexivity |].
  refine (proj1 (play_twice_plays_at_most_once self100 "alarm" world100
                   (fst (play self100 "alarm" true world100))
                   (snd (play self100 "alarm" true world100))
                   (fst (play (after self100 (fst (play self100 "alarm" true world100)))
                           "alarm" true (snd (play self100 "alarm" true world100))))
                   (snd (play (after self100 (fst (play self100 "alarm" true world100)))
                           "alarm" true (snd (play self100 "alarm" true world100))))
                   Hmono _ _ Hclose)).
  - by destruct (play self100 "alarm" true world100).
  - by destruct (play (after self100 (fst (play self100 "alarm" true world100)))
                   "alarm" true (snd (play self100 "alarm" true world100))).
Defined.

End soundcat_theorems.

Section soundcat_errors.
Import soundcat sounds later.

Lemma empty_range_0_0 :
  empty_range 0 0 = "empty range for randrange() (0, 0, 0)"%string.
Proof. vm_compute. reflexivity. Qed.

(** C9, as stated, fails: on a registered category whose directory holds
    no [.wav] file, [play] raises the [ValueError] of the random draw over
    an empty range, not an error that says the samples are missing. *)
Lemma play_on_empty_directory_raises_ValueError :
  match setup world0 with
  | (inr self, w) =>
      _categories self !! "empty"%string = Some "/sounds/empty"%string ∧
      listdir w "/sounds/empty" = Some ["notes.txt"%string] ∧
      fst (play self "empty" false w) =
        inl (ValueError "empty range for randrange() (0, 0, 0)") ∧
      NotFound_style (ValueError "empty range for randrange() (0, 0, 0)") = false
  | (inl _, _) => False
  end.
Proof. vm_compute. repeat split; done. Qed.

(** C9, amended.  Every call of [play] ends in one of these ways.  With
    rate limiting on, it raises [ZeroDivisionError] when [pps] is zero, and
    it returns at once, the object as it was, when the time since the
    timestamp is not more than [1 / pps], both as floats.  Every other call
    raises [KeyError] when the category was never registered and [OSError]
    when its directory cannot be listed; when the listing holds no entry
    ending in [.wav] it raises the [ValueError] of the random draw; when
    the entry drawn cannot be loaded it raises [pygame.error]; otherwise it
    loads and plays that entry, one of those ending in [.wav], under the
    directory of the category. *)
Theorem play_outcome_by_category `{Rounding}
    self category_name (use_pps : bool) (w : World) :
  let w0 := if use_pps then tick w else w in
  if use_pps && Qeq_bool (pps self) 0
  then play self category_name use_pps w = (inl ZeroDivisionError, w0)
  else if use_pps &&
          negb (Qgtb (float_sub (clock w (ticks w)) (_last_play_time self))
                     (round (1 / pps self)))
  then play self category_name use_pps w = (inr self, w0)
  else
    match _categories self !! category_name with
    | None => play self category_name use_pps w = (inl (KeyError category_name), w0)
    | Some directory =>
        match listdir w directory with
        | None => play self category_name use_pps w = (inl (OSError directory), w0)
        | Some entries =>
            match List.filter (fun entry => endswith entry ".wav") entries with
            | [] =>
                play self category_name use_pps w =
                  (inl (ValueError "empty range for randrange() (0, 0, 0)"), w0) ∧
                NotFound_style (ValueError "empty range for randrange() (0, 0, 0)")
                  = false
            | _ :: _ =>
                ∃ sound r w',
                  In sound entries ∧ endswith sound ".wav" = true ∧
                  play self category_name use_pps w = (r, w') ∧
                  if mixer w && loadable w (join_slash directory sound)
                  then
                    (∃ self', r = inr self') ∧
                    new_audio w w' =
                      [Sound_load (join_slash directory sound);
                       Sound_play (join_slash directory sound)]
                  else
                    r = inl (pygame_error (join_slash directory sound)) ∧
                    new_audio w w' = []
            end
        end
    end.
Proof.
  assert (Hspeaks : ∀ w0 : World,
    match _categories self !! category_name with
    | None => play self category_name false w0 = (inl (KeyError category_name), w0)
    | Some directory =>
        match listdir w0 directory with
        | None => play self category_name false w0 = (inl (OSError directory), w0)
        | Some entries =>
            match List.filter (fun entry => endswith entry ".wav") entries with
            | [] =>
                play self category_name false w0 =
                  (inl (ValueError "empty range for randrange() (0, 0, 0)"), w0) ∧
                NotFound_style (ValueError "empty range for randrange() (0, 0, 0)")
                  = false
            | _ :: _ =>
                ∃ sound r w',
                  In sound entries ∧ endswith sound ".wav" = true ∧
                  play self category_name false w0 = (r, w') ∧
                  if mixer w0 && loadable w0 (join_slash directory sound)
                  then
                    (∃ self', r = inr self') ∧
                    audio w' = audio w0 ++
                      [Sound_load (join_slash directory sound);
                       Sound_play (join_slash directory sound)]
                  else
                    r = inl (pygame_error (join_slash directory sound)) ∧
                    audio w' = audio w0
            end
        end
    end).
  { intros w0. rewrite play_speaks.
    destruct (_categories self !! category_name) as [directory |]; [| done].
    destruct (listdir w0 directory) as [entries |]; [| done].
    rewrite wav_entries_filter.
    destruct (List.filter (fun entry => endswith entry ".wav") entries)
      as [| sound0 sounds] eqn:Hwav; [by rewrite empty_range_0_0 |].
    set (i := (Z.of_nat (random w0 (draws w0))
                 mod Z.of_nat (length (sound0 :: sounds)))%Z).
    assert (Hi : (Z.to_nat i < length (sound0 :: sounds))%nat).
    { assert (0 <= i < Z.of_nat (length (sound0 :: sounds)))%Z; [| lia].
      apply Z.mod_pos_bound. simpl. lia. }
    assert (Hin : In (nth (Z.to_nat i) (sound0 :: sounds) ""%string)
                     (List.filter (fun entry => endswith entry ".wav") entries)).
    { rewrite Hwav. by apply nth_In. }
    apply filter_In in Hin as [Hentry Hends].
    exists (nth (Z.to_nat i) (sound0 :: sounds) ""%string).
    cbn zeta.
    destruct (mixer w0 && loadable w0 _).
    - eexists _, _. split; [exact Hentry |]. split; [exact Hends |].
      split; [reflexivity |]. split; [by eexists |].
      simpl. by rewrite <- app_assoc.
    - eexists _, _. split; [exact Hentry |]. split; [exact Hends |].
      split; [reflexivity |]. done. }
  assert (Hfinish : ∀ w0 : World, audio w0 = audio w → mixer w0 = mixer w →
    loadable w0 = loadable w → listdir w0 = listdir w →
    match _categories self !! category_name with
    | None => play self category_name false w0 = (inl (KeyError category_name), w0)
    | Some directory =>
        match listdir w directory with
        | None => play self category_name false w0 = (inl (OSError directory), w0)
        | Some entries =>
            match List.filter (fun entry => endswith entry ".wav") entries with
            | [] =>
                play self category_name false w0 =
                  (inl (ValueError "empty range for randrange() (0, 0, 0)"), w0) ∧
                NotFound_style (ValueError "empty range for randrange() (0, 0, 0)")
                  = false
            | _ :: _ =>
                ∃ sound r w',
                  In sound entries ∧ endswith sound ".wav" = true ∧
                  play self category_name false w0 = (r, w') ∧
                  if mixer w && loadable w (join_slash directory sound)
                  then
                    (∃ self', r = inr self') ∧
                    new_audio w w' =
                      [Sound_load (join_slash directory sound);
                       Sound_play (join_slash directory sound)]
                  else
                    r = inl (pygame_error (join_slash directory sound)) ∧
                    new_audio w w' = []
            end
        end
    end).
  { intros w0 Haudio Hmixer Hloadable Hlistdir.
    pose proof (Hspeaks w0) as Hw0. rewrite Hmixer, Hloadable, Hlistdir in Hw0.
    destruct (_categories self !! category_name) as [directory |]; [| done].
    destruct (listdir w directory) as [entries |]; [| done].
    destruct (List.filter (fun entry => endswith entry ".wav") entries); [done |].
    destruct Hw0 as (sound & r & w' & Hentry & Hends & Hplay & Hout).
    exists sound, r, w'. split; [exact Hentry |]. split; [exact Hends |].
    split; [exact Hplay |].
    destruct (mixer w && loadable w (join_slash directory sound)).
    - destruct Hout as [Hr Hw']. split; [exact Hr |].
      apply new_audio_app. by rewrite Hw', Haudio.
    - destruct Hout as [Hr Hw']. split; [exact Hr |].
      apply new_audio_same. by rewrite Hw', Haudio. }
  destruct use_pps; cbn [andb negb].
  - rewrite play_rate_limited. unfold float_sub.
    destruct (Qeq_bool (pps self) 0); [done |].
    destruct (Qgtb _ _); cbn [negb]; [| done].
    by apply (Hfinish (tick w)).
  - by apply (Hfinish w).
Qed.

(** C10.  The constructor sets the timestamp to the time it is called at.
    So the first [play] with rate limiting on, made no later than
    [1 / pps] seconds after the object was made, plays nothing, whatever
    categories were registered in between. *)
Theorem first_play_soon_after_construction_is_silent `{Rounding}
    pps0 regs category_name w :
  (clock w (S (ticks w)) - clock w (ticks w) <= 1 / pps0)%Q →
  ∃ self w1,
    bind (__init__ pps0) (fun s => add_categories s regs) w = (inr self, w1) ∧
    _last_play_time self = clock w (ticks w) ∧
    clock w1 (ticks w1) = clock w (S (ticks w)) ∧
    ∃ r w2,
      play self category_name true w1 = (r, w2) ∧
      audio w2 = audio w1 ∧
      plays (new_audio w1 w2) = 0%nat ∧
      loads (new_audio w1 w2) = 0%nat ∧
      after self r = self.
Proof.
  intros Hsoon.
  set (self0 := {| _categories := ∅; pps := pps0;
                   _last_play_time := clock w (ticks w) |}).
  set (w0 := {| clock := clock w; ticks := S (ticks w); random := random w;
                draws := draws w; listdir := listdir w; loadable := loadable w;
                mixer := true;
                audio := (audio w ++ [pygame_init]) ++ [mixer_init] |}).
  destruct (add_categories_run self0 regs w0) as (self & Hregs & Hpps & Hlast).
  exists self, w0. split; [| split; [exact Hlast | split; [done |]]].
  { unfold bind at 1, __init__, bind, emit, time_time, ret. simpl. exact Hregs. }
  destruct (play self category_name true w0) as [r w2] eqn:Hplay.
  exists r, w2. split; [done |].
  assert (Hsilent : audio w2 = audio w0 ∧ after self r = self).
  { destruct (Qeq_bool (pps self) 0) eqn:Hzero.
    - rewrite play_rate_limited, Hzero in Hplay. by injection Hplay as <- <-.
    - rewrite play_suppressed in Hplay; [by injection Hplay as <- <- | done |].
      rewrite Hpps, Hlast. exact Hsoon. }
  destruct Hsilent as [Haudio Hafter].
  rewrite (new_audio_same w0 w2) by done. done.
Qed.

Lemma first_play_soon_after_construction_is_silent_witness :
  (clock world0 (S (ticks world0)) - clock world0 (ticks world0) <= 1 / (1 # 10))%Q ∧
  ∃ self w1,
    bind (__init__ (1 # 10))
         (fun s => add_categories s [("alarm", "/sounds/alarm")]%string) world0 =
      (inr self, w1) ∧
    _last_play_time self = clock world0 (ticks world0) ∧
    clock w1 (ticks w1) = clock world0 (S (ticks world0)) ∧
    ∃ r w2,
      play self "alarm" true w1 = (r, w2) ∧
      audio w2 = audio w1 ∧
      plays (new_audio w1 w2) = 0%nat ∧
      loads (new_audio w1 w2) = 0%nat ∧
      after self r = self.
Proof.
  assert (Hsoon : (clock world0 (S (ticks world0)) - clock world0 (ticks world0)
                     <= 1 / (1 # 10))%Q).
  { vm_compute. discriminate. }
  split; [exact Hsoon |].
  exact (first_play_soon_after_construction_is_silent (1 # 10)
           [("alarm", "/sounds/alarm")]%string "alarm" world0 Hsoon).
Defined.

End soundcat_errors.

(** ** The code on examples *)

Section runs_on_examples.
Import cv2 cv2_calls observe.

(** The round trip of the coordinates, on a whole run: a face at
    (5,5)-(20,20) of the region with origin (100,50) is drawn at
    (105,55)-(120,70) of the frame, and [found] is true. *)
Example double_cascade_round_trip :
  examples.outcome
    (@detect.double_cascade doubles.opencv 0%nat true doubles.CASCADE_UPPERBODY
       doubles.CASCADE_SMALL_FACE (doubles.world_of [doubles.body_at_100_50])) =
    Some (0%nat, true, Some [(105, 55, 120, 70)],
          [detectMultiScale_call (xml doubles.CASCADE_UPPERBODY) (Whole 0%nat)
             (12 # 10) 3 1 (60, 60) [(100, 50, 70, 70)];
           rectangle_call 0%nat (100, 50) (170, 120) (0, 255, 0) 2;
           detectMultiScale_call (xml doubles.CASCADE_SMALL_FACE)
             (View 0%nat 50 120 100 170) (12 # 10) 3 1 (25, 25) [(5, 5, 15, 15)];
           rectangle_call 0%nat (105, 55) (120, 70) (0, 0, 255) 2]).
Proof. vm_compute. reflexivity. Qed.

(** No upper body: nothing is cut, nothing is found. *)
Example double_cascade_no_body :
  examples.outcome
    (@detect.double_cascade doubles.opencv 0%nat true doubles.CASCADE_UPPERBODY
       doubles.CASCADE_FACE (doubles.world_of [doubles.still])) =
    Some (0%nat, false, Some [],
          [detectMultiScale_call (xml doubles.CASCADE_UPPERBODY) (Whole 0%nat)
             (12 # 10) 3 1 (60, 60) []]).
Proof. vm_compute. reflexivity. Qed.

Example detect_pattern_two_bodies :
  examples.outcome
    (imgutils.detect_pattern 0%nat doubles.CASCADE_UPPERBODY (60, 60)
       (doubles.world_of [doubles.two_bodies_one_face])) =
    Some ([(10, 10, 80, 80); (100, 10, 170, 80)], 0%nat,
          [detectMultiScale_call (xml doubles.CASCADE_UPPERBODY) (Whole 0%nat)
             (12 # 10) 3 1 (60, 60) [(10, 10, 70, 70); (100, 10, 70, 70)]]).
Proof. vm_compute. reflexivity. Qed.

(** A bright square of 16 by 16 pixels over a dark reference: one box,
    around the square. *)
Example motion_detection_square :
  examples.outcome
    (@detect.motion_detection doubles.opencv 0%nat 1%nat 10 35 200 245760
       (doubles.world_of [doubles.moved; doubles.still])) =
    Some (0%nat, 2%nat, true,
          [rectangle_call 0%nat (4, 4) (20, 20) (0, 255, 0) 2]).
Proof. vm_compute. reflexivity. Qed.

(** The same square against a bound of 100 on the area of the box: the
    contour is dropped. *)
Example motion_detection_square_too_large :
  examples.outcome
    (@detect.motion_detection doubles.opencv 0%nat 1%nat 10 35 200 100
       (doubles.world_of [doubles.moved; doubles.still])) =
    Some (0%nat, 2%nat, false, []).
Proof. vm_compute. reflexivity. Qed.

(** Two identical frames: no contour, nothing drawn. *)
Example motion_detection_identical_frames :
  examples.outcome
    (@detect.motion_detection doubles.opencv 0%nat 1%nat 10 35 200 245760
       (doubles.world_of [doubles.still; doubles.still])) =
    Some (0%nat, 2%nat, false, []).
Proof. vm_compute. reflexivity. Qed.

End runs_on_examples.

(** * More of the code *)

(** ** What the drawing leaves in the store *)

Section painted_runs.
Import cv2 cv2_calls observe annotate.
Context `{OpenCV}.

Lemma painted_app img evs1 evs2 (f : Frame) :
  painted img (evs1 ++ evs2) f = painted img evs2 (painted img evs1 f).
Proof. apply fold_left_app. Qed.

Lemma extends_calls_inj img σ σ' evs1 evs2 :
  extends img σ σ' evs1 → extends img σ σ' evs2 → evs1 = evs2.
Proof.
  intros (H1 & _) (H2 & _). rewrite H1 in H2. by apply app_inv_head in H2.
Qed.

Lemma rectangle_painted img pt1 pt2 color thickness σ (f : Frame) :
  heap σ !! img = Some f →
  ∃ σ', rectangle img pt1 pt2 color thickness σ = Some (tt, σ') ∧
        extends img σ σ' [rectangle_call img pt1 pt2 color thickness] ∧
        heap σ' !! img =
          Some (painted img [rectangle_call img pt1 pt2 color thickness] f).
Proof.
  intros Hf. eexists. split; [by apply rectangle_run |].
  assert (Hlt : (img < length (heap σ))%nat) by (by eapply lookup_lt_Some).
  split; [repeat split; simpl |].
  - apply length_insert.
  - intros l Hl. by apply list_lookup_insert_ne.
  - simpl. rewrite Nat.eqb_refl. by apply list_lookup_insert_eq.
Qed.

(** [box] draws its rectangles in order on [img], and on nothing else. *)
Lemma box_painted coords img color σ (f : Frame) :
  heap σ !! img = Some f →
  ∃ σ', imgutils.box coords img color σ = Some (img, σ') ∧
        extends img σ σ' (box_calls img color coords) ∧
        heap σ' !! img = Some (painted img (box_calls img color coords) f).
Proof.
  unfold imgutils.box.
  revert σ f. induction coords as [| [[[x1 y1] x2] y2] coords IH]; intros σ f Hf.
  - exists σ. split; [done |]. split; [apply extends_refl | done].
  - destruct (rectangle_painted img (x1, y1) (x2, y2) color 2 σ f Hf)
      as (σ1 & Hrun & Hext & Hf1).
    destruct (IH σ1 _ Hf1) as (σ2 & Hrun2 & Hext2 & Hf2).
    exists σ2. split; [| split].
    + simpl. unfold bind in *. rewrite Hrun. simpl.
      destruct (for_ coords _ tt σ1) as [[[] σ3] |] eqn:Hfor; [| done].
      simpl in *. done.
    + apply (extends_trans _ _ _ _ [_] _ Hext Hext2).
    + change (box_calls img color ((x1, y1, x2, y2) :: coords))
        with ([rectangle_call img (x1, y1) (x2, y2) color 2]
                ++ box_calls img color coords).
      by rewrite painted_app.
Qed.

Lemma for_faces_painted x y rects_face frame σ (f : Frame) :
  heap σ !! frame = Some f →
  ∃ σ', detect.for_faces x y rects_face frame σ = Some (frame, σ') ∧
        extends frame σ σ'
          (box_calls frame detect.red (map (translate x y) rects_face)) ∧
        heap σ' !! frame =
          Some (painted frame
                  (box_calls frame detect.red (map (translate x y) rects_face)) f).
Proof.
  unfold detect.for_faces.
  revert σ f. induction rects_face as [| [[[xf yf] wf] hf] rects IH]; intros σ f Hf.
  - exists σ. split; [done |]. split; [apply extends_refl | done].
  - destruct (box_painted [(np.add xf x, np.add yf y, np.add wf x, np.add hf y)]
                frame detect.red σ f Hf) as (σ1 & Hrun & Hext & Hf1).
    destruct (IH σ1 _ Hf1) as (σ2 & Hrun2 & Hext2 & Hf2).
    exists σ2. split; [| split].
    + simpl. erewrite bind_Some by exact Hrun. exact Hrun2.
    + apply (extends_trans _ _ _ _ _ _ Hext Hext2).
    + change (box_calls frame detect.red
                (map (translate x y) ((xf, yf, wf, hf) :: rects)))
        with (box_calls frame detect.red
                [(np.add xf x, np.add yf y, np.add wf x, np.add hf y)]
              ++ box_calls frame detect.red (map (translate x y) rects)).
      by rewrite painted_app.
Qed.

End painted_runs.

Section painted_double_cascade.
Import cv2 cv2_calls observe annotate.
Context `{OpenCV}.

Lemma targets_app evs1 evs2 : targets (evs1 ++ evs2) = targets evs1 ++ targets evs2.
Proof. apply flat_map_app. Qed.

Lemma targets_box_calls img color coords :
  Forall (eq img) (targets (box_calls img color coords)).
Proof.
  induction coords as [| [[[??]?]?] coords IH]; simpl; [done |].
  by constructor.
Qed.

Lemma for_upperbody_painted cascade_face rects frame rects_face σ (f : Frame) :
  heap σ !! frame = Some f →
  ∃ σ' rects_face' evs,
    detect.for_upperbody cascade_face rects frame rects_face σ =
      Some (frame, rects_face', σ') ∧
    extends frame σ σ' evs ∧
    heap σ' !! frame = Some (painted frame evs f) ∧
    Forall (eq frame) (targets evs).
Proof.
  unfold detect.for_upperbody.
  revert σ rects_face f.
  induction rects as [| [[[x y] w] h] rects IH]; intros σ rects_face f Hf.
  - exists σ, rects_face, []. split; [done |]. split; [apply extends_refl | done].
  - set (objects := classify cascade_face (np.slice2 y h x w f) (12 # 10) 3 1 (25, 25)).
    set (ev := detectMultiScale_call (xml cascade_face) (View frame y h x w)
                 (12 # 10) 3 1 (25, 25) objects).
    set (σ1 := {| heap := heap σ; calls := calls σ ++ [ev] |}).
    assert (Hdet : imgutils.detect_pattern (View frame y h x w) cascade_face (25, 25) σ =
                   Some (imgutils.add_origin objects, View frame y h x w, σ1)).
    { refine (detect_pattern_run (I := ndarray) (View frame y h x w) cascade_face
                (25, 25) σ (np.slice2 y h x w f) _).
      unfold as_ndarray, ndarray_image, pixels. by rewrite Hf. }
    assert (Hext1 : extends frame σ σ1 [ev]) by done.
    destruct (for_faces_painted x y (imgutils.add_origin objects) frame σ1 f Hf)
      as (σ2 & Hfaces & Hext2 & Hf2).
    destruct (IH σ2 (imgutils.add_origin objects) _ Hf2)
      as (σ3 & rf' & evs & Hrest & Hext3 & Hf3 & Htargets).
    exists σ3, rf', ([ev] ++ box_calls frame detect.red
                               (map (translate x y) (imgutils.add_origin objects))
                          ++ evs).
    split; [| split; [| split]].
    + simpl. erewrite bind_bind_Some by exact Hdet. simpl.
      erewrite bind_bind_Some by exact Hfaces. exact Hrest.
    + eapply extends_trans; [exact Hext1 |].
      eapply extends_trans; [exact Hext2 | exact Hext3].
    + rewrite !painted_app. exact Hf3.
    + rewrite !targets_app. simpl. apply Forall_app. split; [| done].
      apply targets_box_calls.
Qed.

(** The store after [double_cascade]: the frame holds its pixels with the
    rectangles of the logged calls drawn in order; all of them were drawn
    on the frame; every other array is as it was. *)
Lemma double_cascade_painted frame return_faces cascade_upperbody cascade_face σ
    (f0 : Frame) :
  heap σ !! frame = Some f0 →
  ∃ r σ',
    detect.double_cascade frame return_faces cascade_upperbody cascade_face σ =
      Some (r, σ') ∧
    extends frame σ σ' (new_calls σ σ') ∧
    heap σ' !! frame = Some (painted frame (new_calls σ σ') f0) ∧
    Forall (eq frame) (targets (new_calls σ σ')).
Proof.
  intros Hf.
  set (objects := classify cascade_upperbody f0 (12 # 10) 3 1 (60, 60)).
  set (rects_upperbody := imgutils.add_origin objects).
  set (ev := detectMultiScale_call (xml cascade_upperbody) (Whole frame) (12 # 10)
               3 1 (60, 60) objects).
  set (σ1 := {| heap := heap σ; calls := calls σ ++ [ev] |}).
  assert (Hdet : imgutils.detect_pattern frame cascade_upperbody (60, 60) σ =
                 Some (rects_upperbody, frame, σ1)).
  { exact (detect_pattern_run (I := loc) frame cascade_upperbody (60, 60) σ f0 Hf). }
  assert (Hext1 : extends frame σ σ1 [ev]) by done.
  destruct (box_painted rects_upperbody frame imgutils.green σ1 f0 Hf)
    as (σ2 & Hbox & Hext2 & Hf2).
  destruct (for_upperbody_painted cascade_face rects_upperbody frame [] σ2 _ Hf2)
    as (σ3 & rects_face & evs & Hloop & Hext3 & Hf3 & Htargets).
  assert (Hext : extends frame σ σ3
            ([ev] ++ box_calls frame imgutils.green rects_upperbody ++ evs)).
  { eapply extends_trans; [exact Hext1 |].
    eapply extends_trans; [exact Hext2 | exact Hext3]. }
  exists (frame, (0 <? length rects_face)%nat,
          if return_faces
          then Some (detect.faces_returned rects_face rects_upperbody)
          else None), σ3.
  rewrite (extends_new_calls _ _ _ _ Hext).
  split; [| split; [exact Hext | split]].
  - unfold detect.double_cascade.
    erewrite bind_Some by exact Hdet. simpl.
    erewrite bind_Some by exact Hbox.
    assert (Hbranch :
      (if (0 <? length rects_upperbody)%nat
       then detect.for_upperbody cascade_face rects_upperbody frame []
       else ret (frame, [])) σ2 = Some (frame, rects_face, σ3)).
    { destruct rects_upperbody; [exact Hloop | exact Hloop]. }
    erewrite bind_Some by exact Hbranch. simpl.
    destruct (0 <? length rects_face)%nat, return_faces; reflexivity.
  - rewrite !painted_app. exact Hf3.
  - rewrite !targets_app. simpl. apply Forall_app. split; [| done].
    apply targets_box_calls.
Qed.

End painted_double_cascade.

(** ** More on the two-stage detector *)

Section double_cascade_more.
Import cv2 cv2_calls observe annotate.
Context `{OpenCV}.

(** The regions read off the events are the views the classifier was
    called on. *)
Lemma regions_origins cascade frame evs rects :
  images evs =
    map (fun '(x, y, w, h) => (cascade, View frame y h x w, (25, 25))) rects →
  map fst (detect.regions evs) = map (fun '(x, y, w, h) => (x, y)) rects.
Proof.
  revert rects. induction evs as [| e evs IH]; intros rects Himg.
  - destruct rects as [| [[[??]?]?] rects]; [done | discriminate].
  - destruct e as [c image sf mn fl ms objects | img pt1 pt2 color thickness].
    + destruct rects as [| [[[x y] w] h] rects]; [discriminate |].
      simpl in Himg. injection Himg as -> -> -> Himg.
      simpl. f_equal. by apply IH.
    + simpl in *. by apply IH.
Qed.

Lemma faces_returned_length rects_face rects_upperbody :
  length (detect.faces_returned rects_face rects_upperbody) =
    (length rects_face * length rects_upperbody)%nat.
Proof.
  unfold detect.faces_returned.
  induction rects_face as [| [[[xf yf] wf] hf] rects_face IH]; [done |].
  cbn [flat_map]. rewrite length_app, length_map.
  cbn [length Nat.mul]. f_equal. exact IH.
Qed.

Lemma faces_returned_one rects_face x y w h :
  detect.faces_returned rects_face [(x, y, w, h)] = map (translate x y) rects_face.
Proof.
  unfold detect.faces_returned.
  induction rects_face as [| [[[xf yf] wf] hf] rects_face IH]; [done |].
  cbn [flat_map map app translate]. f_equal. exact IH.
Qed.

Lemma flat_map_not_nil {A B} (g : A → list B) (l : list A) a :
  In a l → g a ≠ [] → flat_map g l ≠ [].
Proof.
  intros Hin Hne Hnil. apply Hne.
  induction l as [| b l IH]; [done |].
  simpl in Hnil. apply app_eq_nil in Hnil as [Hb Hl].
  destruct Hin as [-> | Hin]; [done | by apply IH].
Qed.

(** Everything [double_cascade] does, in one statement. *)
Lemma double_cascade_full frame return_faces cascade_upperbody cascade_face σ
    (f0 : Frame) :
  heap σ !! frame = Some f0 →
  let objects := classify cascade_upperbody f0 (12 # 10) 3 1 (60, 60) in
  let rects_upperbody := imgutils.add_origin objects in
  ∃ σ' rects_face evs,
    detect.double_cascade frame return_faces cascade_upperbody cascade_face σ =
      Some (frame, (0 <? length rects_face)%nat,
            if return_faces
            then Some (detect.faces_returned rects_face rects_upperbody)
            else None, σ') ∧
    new_calls σ σ' =
      [detectMultiScale_call (xml cascade_upperbody) (Whole frame) (12 # 10) 3 1
         (60, 60) objects]
      ++ box_calls frame imgutils.green rects_upperbody ++ evs ∧
    extends frame σ σ' (new_calls σ σ') ∧
    images evs =
      map (fun '(x, y, w, h) => (xml cascade_face, View frame y h x w, (25, 25)))
          rects_upperbody ∧
    drawn detect.red evs =
      flat_map (fun '(x, y, faces) => map (translate x y) faces)
               (detect.regions evs) ∧
    drawn imgutils.green evs = [] ∧
    rects_face = default [] (snd <$> last (detect.regions evs)) ∧
    heap σ' !! frame = Some (painted frame (new_calls σ σ') f0) ∧
    Forall (eq frame) (targets (new_calls σ σ')).
Proof.
  intros Hf objects rects_upperbody.
  destruct (double_cascade_run frame return_faces cascade_upperbody cascade_face σ f0 Hf)
    as (σ' & rects_face & evs & Hrun & Hext & Himg & Hred & Hgreen & Hrf).
  destruct (double_cascade_painted frame return_faces cascade_upperbody cascade_face
              σ f0 Hf) as (r & σ'' & Hrun' & Hext' & Hpainted & Htargets).
  rewrite Hrun in Hrun'. injection Hrun' as <- <-.
  exists σ', rects_face, evs.
  split; [exact Hrun |].
  split; [exact (extends_new_calls _ _ _ _ Hext) |].
  done.
Qed.

End double_cascade_more.

(** ** The coordinates of the faces *)

Section fine_stage_runs.
Import cv2 cv2_calls observe annotate two_stage.
Context `{OpenCV}.

(** The loop over the upper bodies makes the calls of the specified
    second stage. *)
Lemma for_upperbody_fine_stage cascade_face rects frame rects_face σ (f : Frame) :
  heap σ !! frame = Some f →
  ∃ σ' rects_face',
    detect.for_upperbody cascade_face rects frame rects_face σ =
      Some (frame, rects_face', σ') ∧
    extends frame σ σ' (fine_stage cascade_face frame rects f).
Proof.
  unfold detect.for_upperbody.
  revert σ rects_face f.
  induction rects as [| [[[x y] w] h] rects IH]; intros σ rects_face f Hf.
  - exists σ, rects_face. split; [done | apply extends_refl].
  - set (objects := classify cascade_face (np.slice2 y h x w f) (12 # 10) 3 1 (25, 25)).
    set (ev := detectMultiScale_call (xml cascade_face) (View frame y h x w)
                 (12 # 10) 3 1 (25, 25) objects).
    set (σ1 := {| heap := heap σ; calls := calls σ ++ [ev] |}).
    assert (Hdet : imgutils.detect_pattern (View frame y h x w) cascade_face (25, 25) σ =
                   Some (imgutils.add_origin objects, View frame y h x w, σ1)).
    { refine (detect_pattern_run (I := ndarray) (View frame y h x w) cascade_face
                (25, 25) σ (np.slice2 y h x w f) _).
      unfold as_ndarray, ndarray_image, pixels. by rewrite Hf. }
    assert (Hext1 : extends frame σ σ1 [ev]) by done.
    destruct (for_faces_painted x y (imgutils.add_origin objects) frame σ1 f Hf)
      as (σ2 & Hfaces & Hext2 & Hf2).
    destruct (IH σ2 (imgutils.add_origin objects) _ Hf2)
      as (σ3 & rf' & Hrest & Hext3).
    exists σ3, rf'. split.
    + simpl. erewrite bind_bind_Some by exact Hdet. simpl.
      erewrite bind_bind_Some by exact Hfaces. exact Hrest.
    + change (fine_stage cascade_face frame ((x, y, w, h) :: rects) f)
        with ([ev] ++
              box_calls frame detect.red
                (map (translate x y) (imgutils.add_origin objects)) ++
              fine_stage cascade_face frame rects
                (painted frame
                   (box_calls frame detect.red
                      (map (translate x y) (imgutils.add_origin objects))) f)).
      eapply extends_trans; [exact Hext1 |].
      eapply extends_trans; [exact Hext2 | exact Hext3].
Qed.

(** The calls of a whole run of [double_cascade]. *)
Lemma double_cascade_calls frame return_faces cascade_upperbody cascade_face σ
    (f0 : Frame) :
  heap σ !! frame = Some f0 →
  let objects := classify cascade_upperbody f0 (12 # 10) 3 1 (60, 60) in
  let rects_upperbody := imgutils.add_origin objects in
  let green := box_calls frame imgutils.green rects_upperbody in
  ∃ r σ',
    detect.double_cascade frame return_faces cascade_upperbody cascade_face σ =
      Some (r, σ') ∧
    new_calls σ σ' =
      detectMultiScale_call (xml cascade_upperbody) (Whole frame) (12 # 10) 3 1
        (60, 60) objects
      :: green ++ fine_stage cascade_face frame rects_upperbody (painted frame green f0).
Proof.
  intros Hf objects rects_upperbody green.
  set (ev := detectMultiScale_call (xml cascade_upperbody) (Whole frame) (12 # 10)
               3 1 (60, 60) objects).
  set (σ1 := {| heap := heap σ; calls := calls σ ++ [ev] |}).
  assert (Hdet : imgutils.detect_pattern frame cascade_upperbody (60, 60) σ =
                 Some (rects_upperbody, frame, σ1)).
  { exact (detect_pattern_run (I := loc) frame cascade_upperbody (60, 60) σ f0 Hf). }
  assert (Hext1 : extends frame σ σ1 [ev]) by done.
  destruct (box_painted rects_upperbody frame imgutils.green σ1 f0 Hf)
    as (σ2 & Hbox & Hext2 & Hf2).
  destruct (for_upperbody_fine_stage cascade_face rects_upperbody frame [] σ2 _ Hf2)
    as (σ3 & rects_face & Hloop & Hext3).
  assert (Hext : extends frame σ σ3
            ([ev] ++ green ++
             fine_stage cascade_face frame rects_upperbody (painted frame green f0))).
  { eapply extends_trans; [exact Hext1 |].
    eapply extends_trans; [exact Hext2 | exact Hext3]. }
  exists (frame, (0 <? length rects_face)%nat,
          if return_faces
          then Some (detect.faces_returned rects_face rects_upperbody)
          else None), σ3.
  split; [| exact (extends_new_calls _ _ _ _ Hext)].
  unfold detect.double_cascade.
  erewrite bind_Some by exact Hdet. simpl.
  erewrite bind_Some by exact Hbox.
  assert (Hbranch :
    (if (0 <? length rects_upperbody)%nat
     then detect.for_upperbody cascade_face rects_upperbody frame []
     else ret (frame, [])) σ2 = Some (frame, rects_face, σ3)).
  { destruct rects_upperbody; [exact Hloop | exact Hloop]. }
  erewrite bind_Some by exact Hbranch. simpl.
  destruct rects_face, return_faces; done.
Qed.

(** The second stage on the upper bodies [before ++ rest]: the calls for
    [before], then those for [rest] on the frame as the former left it. *)
Lemma fine_stage_app cascade_face frame before rest : ∀ f : Frame,
  fine_stage cascade_face frame (before ++ rest) f =
    fine_stage cascade_face frame before f ++
    fine_stage cascade_face frame rest
      (painted frame (fine_stage cascade_face frame before f) f).
Proof.
  induction before as [| [[[x y] w] h] before IH]; intros f; [done |].
  cbn [app fine_stage]. rewrite IH. cbn [app]. f_equal.
  rewrite <- app_assoc. do 2 f_equal.
  set (boxes := box_calls frame detect.red _).
  change (painted frame (?ev :: boxes ++ ?evs) f)
    with (painted frame (boxes ++ evs) f).
  by rewrite painted_app.
Qed.

Lemma box_calls_In img color coords x1 y1 x2 y2 :
  In (x1, y1, x2, y2) coords →
  In (rectangle_call img (x1, y1) (x2, y2) color 2) (box_calls img color coords).
Proof.
  intros Hin. unfold box_calls. apply in_map_iff. by exists (x1, y1, x2, y2).
Qed.

Lemma faces_returned_In rects_face rects_upperbody face x y w h :
  In face rects_face → In (x, y, w, h) rects_upperbody →
  In (translate x y face) (detect.faces_returned rects_face rects_upperbody).
Proof.
  intros Hface Hbody. unfold detect.faces_returned.
  apply in_flat_map. exists face. split; [exact Hface |].
  destruct face as [[[xf yf] wf] hf].
  apply in_map_iff. exists (x, y, w, h). done.
Qed.

End fine_stage_runs.

Section double_cascade_translation.
Import cv2 cv2_calls observe annotate two_stage.

(** C3.  A run of [double_cascade] makes the calls of the specified
    second stage: after the call on the whole frame and the green boxes,
    for every upper body in turn one call of the face classifier on its
    region and, for every face reported there, a red box with both corners
    moved by the origin (x, y) of that region; nothing else is drawn in
    red.  So whatever face (xf, yf, wf, hf) the classifier reports in the
    region of an upper body with origin (x, y), on the frame as it is when
    that region is searched, is drawn in red at (xf + x, yf + y),
    (wf + x, hf + y).  Asked for the faces, the run returns every face of
    the last region moved by the origin of that region and, when there is
    one upper body, exactly the rectangles drawn in red.  (5,5,20,20) in
    the region with origin (100,50) becomes (105,55,120,70); the sums are
    those of the array elements, ordinary addition as long as the result
    is a 32-bit number. *)
Theorem double_cascade_draws_faces_translated `{OpenCV}
    frame return_faces cascade_upperbody cascade_face σ (f0 : Frame) :
  heap σ !! frame = Some f0 →
  let objects := classify cascade_upperbody f0 (12 # 10) 3 1 (60, 60) in
  let rects_upperbody := imgutils.add_origin objects in
  let green := box_calls frame imgutils.green rects_upperbody in
  ∃ found returned σ',
    detect.double_cascade frame return_faces cascade_upperbody cascade_face σ =
      Some (frame, found, returned, σ') ∧
    new_calls σ σ' =
      detectMultiScale_call (xml cascade_upperbody) (Whole frame) (12 # 10) 3 1
        (60, 60) objects
      :: green ++ fine_stage cascade_face frame rects_upperbody (painted frame green f0) ∧
    (∀ before x y w h rest xf yf wf hf,
       rects_upperbody = before ++ (x, y, w, h) :: rest →
       let f := painted frame
                  (green ++ fine_stage cascade_face frame before (painted frame green f0))
                  f0 in
       In (xf, yf, wf, hf)
          (imgutils.add_origin
             (classify cascade_face (np.slice2 y h x w f) (12 # 10) 3 1 (25, 25))) →
       In (rectangle_call frame (np.add xf x, np.add yf y) (np.add wf x, np.add hf y)
             detect.red 2)
          (new_calls σ σ')) ∧
    drawn detect.red (new_calls σ σ') =
      flat_map (fun '(x, y, faces) => map (translate x y) faces)
               (detect.regions (new_calls σ σ')) ∧
    (return_faces = true →
     ∃ faces_back,
       returned = Some faces_back ∧
       (∀ x y faces face,
          last (detect.regions (new_calls σ σ')) = Some (x, y, faces) →
          In face faces → In (translate x y face) faces_back) ∧
       (length rects_upperbody = 1%nat →
        faces_back = drawn detect.red (new_calls σ σ'))) ∧
    translate 100 50 (5, 5, 20, 20) = (105, 55, 120, 70) ∧
    ∀ x y xf yf wf hf,
      np.int32 (xf + x) → np.int32 (yf + y) →
      np.int32 (wf + x) → np.int32 (hf + y) →
      translate x y (xf, yf, wf, hf) = (xf + x, yf + y, wf + x, hf + y).
Proof.
  intros Hf objects rects_upperbody green.
  destruct (double_cascade_full frame return_faces cascade_upperbody cascade_face σ f0 Hf)
    as (σ' & rects_face & evs & Hrun & Hnew & _ & Himg & Hred & _ & Hrf & _).
  destruct (double_cascade_calls frame return_faces cascade_upperbody cascade_face σ f0 Hf)
    as (r & σ'' & Hrun' & Hcalls).
  rewrite Hrun in Hrun'. injection Hrun' as <- <-.
  fold objects rects_upperbody in Hrun, Hnew, Himg.
  assert (Hregions : detect.regions (new_calls σ σ') = detect.regions evs).
  { rewrite Hnew, !regions_app, regions_box_calls. done. }
  assert (Hdrawn : drawn detect.red (new_calls σ σ') = drawn detect.red evs).
  { rewrite Hnew, !drawn_app, drawn_box_calls_other by done. done. }
  pose proof (regions_origins (xml cascade_face) frame evs rects_upperbody Himg)
    as Horigins.
  eexists _, _, σ'. split; [exact Hrun |]. split; [exact Hcalls |].
  split; [| split; [by rewrite Hdrawn, Hregions |]].
  { intros before x y w h rest xf yf wf hf Hsplit f Hface.
    rewrite Hcalls. fold objects rects_upperbody green.
    rewrite Hsplit, fine_stage_app. cbn [fine_stage].
    unfold f in Hface. rewrite painted_app in Hface.
    right. apply in_or_app. right. apply in_or_app. right.
    right. apply in_or_app. left.
    apply box_calls_In.
    apply in_map_iff. by exists (xf, yf, wf, hf). }
  split; [| split; [done |]].
  - intros ->. eexists. split; [reflexivity |]. split.
    + intros x y faces face Hlast Hface.
      rewrite Hregions in Hlast. rewrite Hlast in Hrf. simpl in Hrf. subst rects_face.
      assert (Hxy : In (x, y) (map (fun '(x, y, w, h) => (x, y)) rects_upperbody)).
      { rewrite <- Horigins. apply in_map_iff. exists (x, y, faces).
        split; [done |]. apply list_elem_of_In. by eapply last_Some_elem_of. }
      apply in_map_iff in Hxy as ([[[x' y'] w] h] & [= -> ->] & Hbody).
      by eapply faces_returned_In.
    + intros Hone.
      destruct rects_upperbody as [| [[[x y] w] h] [| ? ?]]; try discriminate.
      destruct (detect.regions evs) as [| [[x' y'] faces] [| ? ?]] eqn:Hregs;
        try discriminate.
      simpl in Horigins. injection Horigins as -> ->.
      simpl in Hrf. subst rects_face.
      rewrite faces_returned_one, Hdrawn, Hred. simpl. by rewrite app_nil_r.
  - intros x y xf yf wf hf Hx Hy Hw Hh. unfold translate.
    by rewrite !add_int32.
Qed.

Lemma double_cascade_draws_faces_translated_witness :
  heap (doubles.world_of [doubles.body_at_100_50]) !! 0%nat =
    Some doubles.body_at_100_50 ∧
  ∃ found returned σ',
    @detect.double_cascade doubles.opencv 0%nat true doubles.CASCADE_UPPERBODY
      doubles.CASCADE_SMALL_FACE (doubles.world_of [doubles.body_at_100_50]) =
      Some (0%nat, found, returned, σ') ∧
    drawn detect.red (new_calls (doubles.world_of [doubles.body_at_100_50]) σ') =
      flat_map (fun '(x, y, faces) => map (translate x y) faces)
               (detect.regions
                  (new_calls (doubles.world_of [doubles.body_at_100_50]) σ')) ∧
    translate 100 50 (5, 5, 20, 20) = (105, 55, 120, 70).
Proof.
  split; [reflexivity |].
  destruct (double_cascade_draws_faces_translated (H := doubles.opencv)
              0%nat true doubles.CASCADE_UPPERBODY doubles.CASCADE_SMALL_FACE
              (doubles.world_of [doubles.body_at_100_50]) doubles.body_at_100_50
              eq_refl)
    as (found & returned & σ' & Hrun & _ & _ & Hred & _ & Hround & _).
  exists found, returned, σ'.
  split; [exact Hrun |]. split; [exact Hred | exact Hround].
Defined.

End double_cascade_translation.

Section double_cascade_extras.
Import cv2 cv2_calls observe annotate.

(** X1.  [found] is never true without a face: when [double_cascade]
    returns [found = true], the upper-body classifier reported something,
    one of the searched regions holds a face, and a red box was drawn. *)
Theorem double_cascade_found_has_face `{OpenCV}
    frame return_faces cascade_upperbody cascade_face σ (f0 : Frame) :
  heap σ !! frame = Some f0 →
  ∃ found faces σ',
    detect.double_cascade frame return_faces cascade_upperbody cascade_face σ =
      Some (frame, found, faces, σ') ∧
    (found = true →
     classify cascade_upperbody f0 (12 # 10) 3 1 (60, 60) ≠ [] ∧
     (∃ x y face rest, In (x, y, face :: rest) (detect.regions (new_calls σ σ'))) ∧
     drawn detect.red (new_calls σ σ') ≠ []).
Proof.
  intros Hf.
  destruct (double_cascade_full frame return_faces cascade_upperbody cascade_face σ f0 Hf)
    as (σ' & rects_face & evs & Hrun & Hnew & _ & Himg & Hred & _ & Hrf & _).
  eexists _, _, σ'. split; [exact Hrun |].
  intros Hfound.
  assert (Hregions : detect.regions (new_calls σ σ') = detect.regions evs).
  { rewrite Hnew, !regions_app, regions_box_calls. done. }
  assert (Hdrawn : drawn detect.red (new_calls σ σ') = drawn detect.red evs).
  { rewrite Hnew, !drawn_app, drawn_box_calls_other by done. done. }
  rewrite Hregions, Hdrawn.
  destruct (last (detect.regions evs)) as [[[x y] faces] |] eqn:Hlast;
    [| by rewrite Hrf in Hfound].
  rewrite Hrf in Hfound. simpl in Hfound.
  destruct faces as [| face rest]; [done |].
  assert (Hin : In (x, y, face :: rest) (detect.regions evs)).
  { apply list_elem_of_In. by eapply last_Some_elem_of. }
  split; [| split].
  - intros Hnone. rewrite Hnone in Himg. simpl in Himg.
    pose proof (regions_origins (xml cascade_face) frame evs [] Himg) as Horigins.
    destruct (detect.regions evs); [done | discriminate].
  - eauto.
  - rewrite Hred. by apply (flat_map_not_nil _ _ _ Hin).
Qed.

Lemma double_cascade_found_has_face_witness :
  heap (doubles.world_of [doubles.body_at_100_50]) !! 0%nat =
    Some doubles.body_at_100_50 ∧
  ∃ found faces σ',
    @detect.double_cascade doubles.opencv 0%nat true doubles.CASCADE_UPPERBODY
      doubles.CASCADE_SMALL_FACE (doubles.world_of [doubles.body_at_100_50]) =
      Some (0%nat, found, faces, σ') ∧
    (found = true →
     classify doubles.CASCADE_UPPERBODY doubles.body_at_100_50 (12 # 10) 3 1 (60, 60)
       ≠ [] ∧
     (∃ x y face rest,
        In (x, y, face :: rest)
           (detect.regions (new_calls (doubles.world_of [doubles.body_at_100_50]) σ'))) ∧
     drawn detect.red (new_calls (doubles.world_of [doubles.body_at_100_50]) σ') ≠ []).
Proof.
  split; [reflexivity |].
  apply (double_cascade_found_has_face (H := doubles.opencv) 0%nat true
           doubles.CASCADE_UPPERBODY doubles.CASCADE_SMALL_FACE
           (doubles.world_of [doubles.body_at_100_50]) doubles.body_at_100_50).
  reflexivity.
Defined.

(** X2.  When the upper-body classifier reports nothing, [double_cascade]
    makes that one classifier call and nothing else: [found] is false, the
    returned faces are empty, and no array of the store is changed. *)
Theorem double_cascade_without_upperbody `{OpenCV}
    frame return_faces cascade_upperbody cascade_face σ (f0 : Frame) :
  heap σ !! frame = Some f0 →
  classify cascade_upperbody f0 (12 # 10) 3 1 (60, 60) = [] →
  detect.double_cascade frame return_faces cascade_upperbody cascade_face σ =
    Some (frame, false, if return_faces then Some [] else None,
          {| heap := heap σ;
             calls := calls σ ++
               [detectMultiScale_call (xml cascade_upperbody) (Whole frame)
                  (12 # 10) 3 1 (60, 60) []] |}).
Proof.
  intros Hf Hnone. unfold detect.double_cascade.
  erewrite bind_Some
    by (exact (detect_pattern_run (I := loc) frame cascade_upperbody (60, 60) σ f0 Hf)).
  rewrite Hnone. simpl. by destruct return_faces.
Qed.

Lemma double_cascade_without_upperbody_witness :
  heap (doubles.world_of [doubles.still]) !! 0%nat = Some doubles.still ∧
  classify doubles.CASCADE_UPPERBODY doubles.still (12 # 10) 3 1 (60, 60) = [] ∧
  @detect.double_cascade doubles.opencv 0%nat true doubles.CASCADE_UPPERBODY
    doubles.CASCADE_FACE (doubles.world_of [doubles.still]) =
    Some (0%nat, false, Some [],
          {| heap := heap (doubles.world_of [doubles.still]);
             calls := calls (doubles.world_of [doubles.still]) ++
               [detectMultiScale_call (xml doubles.CASCADE_UPPERBODY) (Whole 0%nat)
                  (12 # 10) 3 1 (60, 60) []] |}).
Proof.
  split; [reflexivity |]. split; [reflexivity |].
  apply (double_cascade_without_upperbody (H := doubles.opencv) 0%nat true
           doubles.CASCADE_UPPERBODY doubles.CASCADE_FACE
           (doubles.world_of [doubles.still]) doubles.still); reflexivity.
Defined.

End double_cascade_extras.

Section double_cascade_extras_2.
Import cv2 cv2_calls observe annotate.

(** X3.  With exactly one upper body (x, y, w, h), [double_cascade] is the
    two-stage detector one expects: [found] tells whether that region holds
    a face, and the faces drawn in red, and returned when asked for, are
    the faces of the region moved by (x, y). *)
Theorem double_cascade_one_upperbody `{OpenCV}
    frame return_faces cascade_upperbody cascade_face σ (f0 : Frame) x y w h :
  heap σ !! frame = Some f0 →
  classify cascade_upperbody f0 (12 # 10) 3 1 (60, 60) = [(x, y, w, h)] →
  ∃ faces σ',
    detect.double_cascade frame return_faces cascade_upperbody cascade_face σ =
      Some (frame, (0 <? length faces)%nat,
            if return_faces then Some (map (translate x y) faces) else None, σ') ∧
    detect.regions (new_calls σ σ') = [(x, y, faces)] ∧
    drawn detect.red (new_calls σ σ') = map (translate x y) faces ∧
    drawn imgutils.green (new_calls σ σ') = [(x, y, np.add w x, np.add h y)].
Proof.
  intros Hf Hone.
  destruct (double_cascade_full frame return_faces cascade_upperbody cascade_face σ f0 Hf)
    as (σ' & rects_face & evs & Hrun & Hnew & _ & Himg & Hred & Hgreen & Hrf & _).
  rewrite Hone in *. simpl in Himg, Hrun, Hnew.
  pose proof (regions_origins (xml cascade_face) frame evs
                [(x, y, np.add w x, np.add h y)] Himg) as Horigins.
  destruct (detect.regions evs) as [| [[x' y'] faces] [| ? ?]] eqn:Hregions;
    try discriminate.
  simpl in Horigins. injection Horigins as -> ->.
  simpl in Hrf. subst rects_face.
  exists faces, σ'. split; [| split; [| split]].
  - rewrite Hrun. by rewrite faces_returned_one.
  - rewrite Hnew. simpl. exact Hregions.
  - rewrite Hnew. simpl. rewrite Hred. simpl. by rewrite app_nil_r.
  - rewrite Hnew. simpl. by rewrite Hgreen.
Qed.

Lemma double_cascade_one_upperbody_witness :
  heap (doubles.world_of [doubles.body_at_100_50]) !! 0%nat =
    Some doubles.body_at_100_50 ∧
  classify doubles.CASCADE_UPPERBODY doubles.body_at_100_50 (12 # 10) 3 1 (60, 60) =
    [(100, 50, 70, 70)] ∧
  ∃ faces σ',
    @detect.double_cascade doubles.opencv 0%nat true doubles.CASCADE_UPPERBODY
      doubles.CASCADE_SMALL_FACE (doubles.world_of [doubles.body_at_100_50]) =
      Some (0%nat, (0 <? length faces)%nat,
            Some (map (translate 100 50) faces), σ') ∧
    detect.regions (new_calls (doubles.world_of [doubles.body_at_100_50]) σ') =
      [(100, 50, faces)] ∧
    drawn detect.red (new_calls (doubles.world_of [doubles.body_at_100_50]) σ') =
      map (translate 100 50) faces ∧
    drawn imgutils.green (new_calls (doubles.world_of [doubles.body_at_100_50]) σ') =
      [(100, 50, np.add 70 100, np.add 70 50)].
Proof.
  split; [reflexivity |]. split; [reflexivity |].
  apply (double_cascade_one_upperbody (H := doubles.opencv) 0%nat true
           doubles.CASCADE_UPPERBODY doubles.CASCADE_SMALL_FACE
           (doubles.world_of [doubles.body_at_100_50]) doubles.body_at_100_50
           100 50 70 70); reflexivity.
Defined.

(** X4.  The faces returned on request are, for every face of the last
    searched region in turn, that face moved by the origin of every upper
    body in turn; so they are as many as the faces of the last region times
    the upper bodies.  What the other regions hold has no part in it. *)
Theorem double_cascade_returned_faces_count `{OpenCV}
    frame cascade_upperbody cascade_face σ (f0 : Frame) :
  heap σ !! frame = Some f0 →
  let rects_upperbody :=
    imgutils.add_origin (classify cascade_upperbody f0 (12 # 10) 3 1 (60, 60)) in
  ∃ found returned σ',
    detect.double_cascade frame true cascade_upperbody cascade_face σ =
      Some (frame, found, Some returned, σ') ∧
    returned =
      flat_map (fun face => map (fun '(x, y, w, h) => translate x y face)
                                rects_upperbody)
               (default [] (snd <$> last (detect.regions (new_calls σ σ')))) ∧
    length returned =
      Nat.mul
        (length (default [] (snd <$> last (detect.regions (new_calls σ σ')))))
        (length (classify cascade_upperbody f0 (12 # 10) 3 1 (60, 60))).
Proof.
  intros Hf rects_upperbody.
  destruct (double_cascade_full frame true cascade_upperbody cascade_face σ f0 Hf)
    as (σ' & rects_face & evs & Hrun & Hnew & _ & _ & _ & _ & Hrf & _).
  fold rects_upperbody in Hrun.
  assert (Hlast : default [] (snd <$> last (detect.regions (new_calls σ σ')))
                  = rects_face).
  { rewrite Hnew, !regions_app, regions_box_calls. simpl. by rewrite Hrf. }
  eexists _, _, σ'. split; [exact Hrun |]. rewrite Hlast. split.
  - unfold detect.faces_returned. apply flat_map_ext.
    intros [[[xf yf] wf] hf]. apply map_ext. by intros [[[x y] w] h].
  - rewrite faces_returned_length. unfold rects_upperbody, imgutils.add_origin.
    by rewrite length_map.
Qed.

Lemma double_cascade_returned_faces_count_witness :
  heap (doubles.world_of [doubles.two_bodies_one_face]) !! 0%nat =
    Some doubles.two_bodies_one_face ∧
  ∃ found returned σ',
    @detect.double_cascade doubles.opencv 0%nat true doubles.CASCADE_UPPERBODY
      doubles.CASCADE_FACE (doubles.world_of [doubles.two_bodies_one_face]) =
      Some (0%nat, found, Some returned, σ') ∧
    length returned =
      Nat.mul
        (length (default [] (snd <$> last (detect.regions
                   (new_calls (doubles.world_of [doubles.two_bodies_one_face]) σ')))))
        (length (classify doubles.CASCADE_UPPERBODY doubles.two_bodies_one_face
                   (12 # 10) 3 1 (60, 60))).
Proof.
  split; [reflexivity |].
  destruct (double_cascade_returned_faces_count (H := doubles.opencv) 0%nat
              doubles.CASCADE_UPPERBODY doubles.CASCADE_FACE
              (doubles.world_of [doubles.two_bodies_one_face])
              doubles.two_bodies_one_face eq_refl)
    as (found & returned & σ' & Hrun & _ & Hlen).
  exists found, returned, σ'. split; [exact Hrun | exact Hlen].
Defined.

(** X5.  [double_cascade] annotates in place: it returns the handle it
    was given; every drawing call is made on that frame, which ends as its
    pixels with the logged rectangles drawn in order; the green boxes are
    the upper bodies, one each; and every other array of the store is as it
    was. *)
Theorem double_cascade_annotates_in_place `{OpenCV}
    frame return_faces cascade_upperbody cascade_face σ (f0 : Frame) :
  heap σ !! frame = Some f0 →
  ∃ found faces σ',
    detect.double_cascade frame return_faces cascade_upperbody cascade_face σ =
      Some (frame, found, faces, σ') ∧
    heap σ' !! frame = Some (painted frame (new_calls σ σ') f0) ∧
    Forall (eq frame) (targets (new_calls σ σ')) ∧
    drawn imgutils.green (new_calls σ σ') =
      imgutils.add_origin (classify cascade_upperbody f0 (12 # 10) 3 1 (60, 60)) ∧
    length (heap σ') = length (heap σ) ∧
    ∀ l, l ≠ frame → heap σ' !! l = heap σ !! l.
Proof.
  intros Hf.
  destruct (double_cascade_full frame return_faces cascade_upperbody cascade_face σ f0 Hf)
    as (σ' & rects_face & evs & Hrun & Hnew & Hext & _ & _ & Hgreen & _ & Hpainted
          & Htargets).
  eexists _, _, σ'. split; [exact Hrun |].
  split; [exact Hpainted |]. split; [exact Htargets |].
  destruct Hext as (_ & Hlen & Hother).
  split; [| done].
  rewrite Hnew, !drawn_app, drawn_box_calls_same, Hgreen. simpl.
  by rewrite app_nil_r.
Qed.

Lemma double_cascade_annotates_in_place_witness :
  heap (doubles.world_of [doubles.two_bodies_one_face; doubles.still]) !! 0%nat =
    Some doubles.two_bodies_one_face ∧
  ∃ found faces σ',
    @detect.double_cascade doubles.opencv 0%nat false doubles.CASCADE_UPPERBODY
      doubles.CASCADE_FACE
      (doubles.world_of [doubles.two_bodies_one_face; doubles.still]) =
      Some (0%nat, found, faces, σ') ∧
    heap σ' !! 1%nat = Some doubles.still ∧
    Forall (eq 0%nat)
      (targets (new_calls
                  (doubles.world_of [doubles.two_bodies_one_face; doubles.still]) σ')).
Proof.
  split; [reflexivity |].
  destruct (double_cascade_annotates_in_place (H := doubles.opencv) 0%nat false
              doubles.CASCADE_UPPERBODY doubles.CASCADE_FACE
              (doubles.world_of [doubles.two_bodies_one_face; doubles.still])
              doubles.two_bodies_one_face eq_refl)
    as (found & faces & σ' & Hrun & _ & Htargets & _ & _ & Hother).
  exists found, faces, σ'. split; [exact Hrun |]. split; [| exact Htargets].
  etransitivity; [apply (Hother 1%nat); discriminate | reflexivity].
Defined.

End double_cascade_extras_2.

(** ** The single-stage detector *)

Section single_cascade_runs.
Import cv2 cv2_calls observe annotate.
Context `{OpenCV}.

Lemma single_cascade_run frame cascade return_faces drawboxes σ (f : Frame) :
  heap σ !! frame = Some f →
  let objects := classify cascade f (12 # 10) 3 1 (60, 60) in
  let rects := imgutils.add_origin objects in
  let ev := detectMultiScale_call (xml cascade) (Whole frame) (12 # 10) 3 1
              (60, 60) objects in
  ∃ σ',
    detect.single_cascade frame cascade return_faces drawboxes σ =
      Some (frame, (0 <? length rects)%nat,
            if return_faces then Some rects else None, σ') ∧
    extends frame σ σ'
      (ev :: if drawboxes then box_calls frame imgutils.green rects else []) ∧
    heap σ' !! frame =
      Some (if drawboxes
            then painted frame (box_calls frame imgutils.green rects) f
            else f).
Proof.
  intros Hf objects rects ev.
  set (σ1 := {| heap := heap σ; calls := calls σ ++ [ev] |}).
  assert (Hdet : imgutils.detect_pattern frame cascade (60, 60) σ =
                 Some (rects, frame, σ1)).
  { exact (detect_pattern_run (I := loc) frame cascade (60, 60) σ f Hf). }
  assert (Hext1 : extends frame σ σ1 [ev]) by done.
  unfold detect.single_cascade.
  destruct drawboxes.
  - destruct (box_painted rects frame imgutils.green σ1 f Hf)
      as (σ2 & Hbox & Hext2 & Hf2).
    exists σ2. split; [| split; [| exact Hf2]].
    + erewrite bind_Some by exact Hdet. simpl.
      erewrite bind_Some by exact Hbox.
      destruct (0 <? length rects)%nat, return_faces; reflexivity.
    + apply (extends_trans _ _ _ _ [ev] _ Hext1 Hext2).
  - exists σ1. split; [| split; [exact Hext1 | exact Hf]].
    erewrite bind_Some by exact Hdet. simpl.
    destruct (0 <? length rects)%nat, return_faces; reflexivity.
Qed.

End single_cascade_runs.

Section single_cascade_extras.
Import cv2 cv2_calls observe annotate.

(** X6.  [single_cascade] finds something exactly when the classifier
    reports a rectangle; the rectangles it returns on request are the
    classifier's, with the origin added to the size. *)
Theorem single_cascade_found_iff_reported `{OpenCV}
    frame cascade return_faces drawboxes σ (f : Frame) :
  heap σ !! frame = Some f →
  ∃ found σ',
    detect.single_cascade frame cascade return_faces drawboxes σ =
      Some (frame, found,
            if return_faces
            then Some (map (fun '(x, y, w, h) => (x, y, np.add w x, np.add h y))
                           (classify cascade f (12 # 10) 3 1 (60, 60)))
            else None, σ') ∧
    (found = true ↔ classify cascade f (12 # 10) 3 1 (60, 60) ≠ []).
Proof.
  intros Hf.
  destruct (single_cascade_run frame cascade return_faces drawboxes σ f Hf)
    as (σ' & Hrun & _).
  eexists _, σ'. split; [exact Hrun |].
  unfold imgutils.add_origin. rewrite length_map.
  destruct (classify cascade f (12 # 10) 3 1 (60, 60)); simpl; split; done.
Qed.

Lemma single_cascade_found_iff_reported_witness :
  heap (doubles.world_of [doubles.two_bodies_one_face]) !! 0%nat =
    Some doubles.two_bodies_one_face ∧
  ∃ found σ',
    @detect.single_cascade doubles.opencv 0%nat doubles.CASCADE_UPPERBODY true true
      (doubles.world_of [doubles.two_bodies_one_face]) =
      Some (0%nat, found,
            Some (map (fun '(x, y, w, h) => (x, y, np.add w x, np.add h y))
                      (classify doubles.CASCADE_UPPERBODY doubles.two_bodies_one_face
                         (12 # 10) 3 1 (60, 60))), σ') ∧
    (found = true ↔
     classify doubles.CASCADE_UPPERBODY doubles.two_bodies_one_face
       (12 # 10) 3 1 (60, 60) ≠ []).
Proof.
  split; [reflexivity |].
  apply (single_cascade_found_iff_reported (H := doubles.opencv) 0%nat
           doubles.CASCADE_UPPERBODY true true
           (doubles.world_of [doubles.two_bodies_one_face])
           doubles.two_bodies_one_face).
  reflexivity.
Defined.

(** X7.  With [drawboxes] unset, [single_cascade] calls the classifier
    once and leaves the store as it is, whatever was found. *)
Theorem single_cascade_without_boxes `{OpenCV}
    frame cascade return_faces σ (f : Frame) :
  heap σ !! frame = Some f →
  ∃ r,
    detect.single_cascade frame cascade return_faces false σ =
      Some (r, {| heap := heap σ;
                  calls := calls σ ++
                    [detectMultiScale_call (xml cascade) (Whole frame) (12 # 10) 3 1
                       (60, 60) (classify cascade f (12 # 10) 3 1 (60, 60))] |}).
Proof.
  intros Hf. unfold detect.single_cascade.
  erewrite bind_Some
    by (exact (detect_pattern_run (I := loc) frame cascade (60, 60) σ f Hf)).
  simpl. destruct return_faces; eexists; reflexivity.
Qed.

Lemma single_cascade_without_boxes_witness :
  heap (doubles.world_of [doubles.two_bodies_one_face]) !! 0%nat =
    Some doubles.two_bodies_one_face ∧
  ∃ r,
    @detect.single_cascade doubles.opencv 0%nat doubles.CASCADE_UPPERBODY true false
      (doubles.world_of [doubles.two_bodies_one_face]) =
      Some (r, {| heap := heap (doubles.world_of [doubles.two_bodies_one_face]);
                  calls := calls (doubles.world_of [doubles.two_bodies_one_face]) ++
                    [detectMultiScale_call (xml doubles.CASCADE_UPPERBODY) (Whole 0%nat)
                       (12 # 10) 3 1 (60, 60)
                       (classify doubles.CASCADE_UPPERBODY doubles.two_bodies_one_face
                          (12 # 10) 3 1 (60, 60))] |}).
Proof.
  split; [reflexivity |].
  apply (single_cascade_without_boxes (H := doubles.opencv) 0%nat
           doubles.CASCADE_UPPERBODY true
           (doubles.world_of [doubles.two_bodies_one_face])
           doubles.two_bodies_one_face).
  reflexivity.
Defined.

(** X8.  With [drawboxes] set, [single_cascade] draws one green box of
    thickness 2 per rectangle found, in order and on the frame only: the
    frame ends as its pixels with these boxes drawn, the other arrays are
    as they were. *)
Theorem single_cascade_draws_boxes `{OpenCV}
    frame cascade return_faces σ (f : Frame) :
  heap σ !! frame = Some f →
  ∃ r σ',
    detect.single_cascade frame cascade return_faces true σ = Some (r, σ') ∧
    new_calls σ σ' =
      detectMultiScale_call (xml cascade) (Whole frame) (12 # 10) 3 1 (60, 60)
        (classify cascade f (12 # 10) 3 1 (60, 60)) ::
      map (fun '(x, y, w, h) =>
             rectangle_call frame (x, y) (np.add w x, np.add h y) (0, 255, 0) 2)
          (classify cascade f (12 # 10) 3 1 (60, 60)) ∧
    heap σ' !! frame = Some (painted frame (new_calls σ σ') f) ∧
    ∀ l, l ≠ frame → heap σ' !! l = heap σ !! l.
Proof.
  intros Hf.
  destruct (single_cascade_run frame cascade return_faces true σ f Hf)
    as (σ' & Hrun & Hext & Hpainted).
  eexists _, σ'. split; [exact Hrun |].
  rewrite (extends_new_calls _ _ _ _ Hext).
  split; [| split; [exact Hpainted | by destruct Hext as (_ & _ & ?)]].
  f_equal. unfold box_calls, imgutils.add_origin. rewrite map_map.
  apply map_ext. by intros [[[x y] w] h].
Qed.

Lemma single_cascade_draws_boxes_witness :
  heap (doubles.world_of [doubles.two_bodies_one_face]) !! 0%nat =
    Some doubles.two_bodies_one_face ∧
  ∃ r σ',
    @detect.single_cascade doubles.opencv 0%nat doubles.CASCADE_UPPERBODY true true
      (doubles.world_of [doubles.two_bodies_one_face]) = Some (r, σ') ∧
    drawn imgutils.green (new_calls (doubles.world_of [doubles.two_bodies_one_face]) σ') =
      [(10, 10, 80, 80); (100, 10, 170, 80)].
Proof.
  split; [reflexivity |].
  destruct (single_cascade_draws_boxes (H := doubles.opencv) 0%nat
              doubles.CASCADE_UPPERBODY true
              (doubles.world_of [doubles.two_bodies_one_face])
              doubles.two_bodies_one_face eq_refl)
    as (r & σ' & Hrun & Hnew & _).
  exists r, σ'. split; [exact Hrun |].
  rewrite Hnew. vm_compute. reflexivity.
Defined.

End single_cascade_extras.

(** ** [box], and the two detectors together *)

Section box_extras.
Import cv2 cv2_calls observe annotate.

Lemma for_app {A S} (l1 l2 : list A) (body : A → S → M S) (s : S) σ :
  for_ (l1 ++ l2) body s σ = bind (for_ l1 body s) (for_ l2 body) σ.
Proof.
  revert s σ. induction l1 as [| a l1 IH]; intros s σ; [done |].
  simpl. unfold bind.
  destruct (body a s σ) as [[s' σ'] |]; [| done].
  rewrite IH. done.
Qed.

(** X9.  Drawing a list of boxes is drawing its parts one after the
    other: [box(a + b, img)] does what [box(a, img)] followed by
    [box(b, img)] does, also when a call fails.  So [box([], img)] does
    nothing and drawing a list twice draws every box twice. *)
Theorem box_app `{OpenCV} (coords1 coords2 : list Rect) img color σ :
  imgutils.box (coords1 ++ coords2) img color σ =
    bind (imgutils.box coords1 img color)
         (fun img' => imgutils.box coords2 img' color) σ.
Proof.
  unfold imgutils.box. unfold bind.
  rewrite for_app. unfold bind.
  destruct (for_ coords1 _ tt σ) as [[[] σ1] |]; [| done].
  done.
Qed.

(** X10.  [box] returns its image; it makes one [cv2.rectangle] call of
    thickness 2 per quadruple, in order, from (x1, y1) to (x2, y2) in the
    given color; the image ends as its pixels with these rectangles drawn
    and every other array is as it was. *)
Theorem box_draws_each_rectangle `{OpenCV} coords img color σ (f : Frame) :
  heap σ !! img = Some f →
  ∃ σ',
    imgutils.box coords img color σ = Some (img, σ') ∧
    new_calls σ σ' =
      map (fun '(x1, y1, x2, y2) => rectangle_call img (x1, y1) (x2, y2) color 2)
          coords ∧
    heap σ' !! img = Some (painted img (new_calls σ σ') f) ∧
    length (heap σ') = length (heap σ) ∧
    ∀ l, l ≠ img → heap σ' !! l = heap σ !! l.
Proof.
  intros Hf.
  destruct (box_painted coords img color σ f Hf) as (σ' & Hrun & Hext & Hpainted).
  exists σ'. split; [exact Hrun |].
  rewrite (extends_new_calls _ _ _ _ Hext).
  split; [done |]. split; [exact Hpainted |].
  by destruct Hext as (_ & ? & ?).
Qed.

Lemma box_draws_each_rectangle_witness :
  heap (doubles.world_of [doubles.still; doubles.moved]) !! 0%nat = Some doubles.still ∧
  ∃ σ',
    @imgutils.box doubles.opencv [(1, 1, 5, 5); (2, 3, 9, 8)] 0%nat imgutils.green
      (doubles.world_of [doubles.still; doubles.moved]) = Some (0%nat, σ') ∧
    new_calls (doubles.world_of [doubles.still; doubles.moved]) σ' =
      [rectangle_call 0%nat (1, 1) (5, 5) (0, 255, 0) 2;
       rectangle_call 0%nat (2, 3) (9, 8) (0, 255, 0) 2] ∧
    heap σ' !! 1%nat = Some doubles.moved.
Proof.
  split; [reflexivity |].
  destruct (box_draws_each_rectangle (H := doubles.opencv)
              [(1, 1, 5, 5); (2, 3, 9, 8)] 0%nat imgutils.green
              (doubles.world_of [doubles.still; doubles.moved]) doubles.still eq_refl)
    as (σ' & Hrun & Hnew & _ & _ & Hother).
  exists σ'. split; [exact Hrun |]. split; [exact Hnew |].
  etransitivity; [apply (Hother 1%nat); discriminate | reflexivity].
Defined.

(** X11.  The two-stage detector starts as the single-stage one: the
    calls of [single_cascade] on the upper-body cascade, boxes drawn, are
    the first calls of [double_cascade]; the regions [double_cascade]
    then searches start at the (x, y) of the rectangles [single_cascade]
    returns, one region per rectangle and in order; and [double_cascade]
    finds nothing where [single_cascade] finds nothing. *)
Theorem double_cascade_extends_single_cascade `{OpenCV}
    frame return_faces cascade_upperbody cascade_face σ (f0 : Frame) :
  heap σ !! frame = Some f0 →
  ∃ found1 rects σ1 found2 faces σ2,
    detect.single_cascade frame cascade_upperbody true true σ =
      Some (frame, found1, Some rects, σ1) ∧
    detect.double_cascade frame return_faces cascade_upperbody cascade_face σ =
      Some (frame, found2, faces, σ2) ∧
    new_calls σ σ1 `prefix_of` new_calls σ σ2 ∧
    map fst (detect.regions (new_calls σ σ2)) =
      map (fun '(x, y, w, h) => (x, y)) rects ∧
    (found2 = true → found1 = true).
Proof.
  intros Hf.
  destruct (single_cascade_run frame cascade_upperbody true true σ f0 Hf)
    as (σ1 & Hrun1 & Hext1 & _).
  destruct (double_cascade_full frame return_faces cascade_upperbody cascade_face σ f0 Hf)
    as (σ2 & rects_face & evs & Hrun2 & Hnew & _ & Himg & _ & _ & Hrf & _).
  eexists _, _, σ1, _, _, σ2.
  split; [exact Hrun1 |]. split; [exact Hrun2 |].
  rewrite (extends_new_calls _ _ _ _ Hext1), Hnew.
  pose proof (regions_origins _ frame evs _ Himg) as Horigins.
  split; [| split].
  - exists evs. done.
  - rewrite !regions_app, regions_box_calls. simpl. exact Horigins.
  - destruct (imgutils.add_origin
                (classify cascade_upperbody f0 (12 # 10) 3 1 (60, 60))); [| done].
    simpl in Horigins. destruct (detect.regions evs); [| discriminate].
    by rewrite Hrf.
Qed.

Lemma double_cascade_extends_single_cascade_witness :
  heap (doubles.world_of [doubles.two_bodies_one_face]) !! 0%nat =
    Some doubles.two_bodies_one_face ∧
  ∃ found1 rects σ1 found2 faces σ2,
    @detect.single_cascade doubles.opencv 0%nat doubles.CASCADE_UPPERBODY true true
      (doubles.world_of [doubles.two_bodies_one_face]) =
      Some (0%nat, found1, Some rects, σ1) ∧
    @detect.double_cascade doubles.opencv 0%nat true doubles.CASCADE_UPPERBODY
      doubles.CASCADE_FACE (doubles.world_of [doubles.two_bodies_one_face]) =
      Some (0%nat, found2, faces, σ2) ∧
    new_calls (doubles.world_of [doubles.two_bodies_one_face]) σ1
      `prefix_of` new_calls (doubles.world_of [doubles.two_bodies_one_face]) σ2 ∧
    map fst (detect.regions
               (new_calls (doubles.world_of [doubles.two_bodies_one_face]) σ2)) =
      map (fun '(x, y, w, h) => (x, y)) rects ∧
    (found2 = true → found1 = true).
Proof.
  split; [reflexivity |].
  apply (double_cascade_extends_single_cascade (H := doubles.opencv) 0%nat true
           doubles.CASCADE_UPPERBODY doubles.CASCADE_FACE
           (doubles.world_of [doubles.two_bodies_one_face])
           doubles.two_bodies_one_face).
  reflexivity.
Defined.

End box_extras.

(** ** More on the motion detector *)

Section motion_extras.
Import cv2 cv2_calls observe motion.

Lemma filter_sublist_impl {A} (P Q : A → Prop) `{∀ x, Decision (P x)}
    `{∀ x, Decision (Q x)} (l : list A) :
  (∀ x, P x → Q x) → filter P l `sublist_of` filter Q l.
Proof.
  intros Himpl. induction l as [| a l IH]; [done |].
  rewrite !filter_cons.
  destruct (decide (P a)) as [HP | HP].
  - rewrite decide_True by auto. by apply sublist_skip.
  - destruct (decide (Q a)); [by apply sublist_cons | done].
Qed.

Lemma sublist_map {A B} (g : A → B) (l k : list A) :
  l `sublist_of` k → map g l `sublist_of` map g k.
Proof.
  induction 1 as [| a l k _ IH | a l k _ IH]; simpl.
  - done.
  - by apply sublist_skip.
  - by apply sublist_cons.
Qed.

(** X12.  [found] and the drawing go together: when [found] is false
    nothing was drawn and the frame holds the pixels it came with; when it
    is true at least one box was drawn.  In both cases the frame ends as
    its pixels with the boxes of the kept contours drawn in order. *)
Theorem motion_detection_found_iff_drawn `{OpenCV}
    frame first_frame thresh it min_area max_area σ (f g : Frame) :
  heap σ !! frame = Some f →
  heap σ !! first_frame = Some g →
  ∃ raw_frame found σ',
    detect.motion_detection frame first_frame thresh it min_area max_area σ =
      Some (frame, raw_frame, found, σ') ∧
    heap σ' !! frame =
      Some (fold_left paint
              (filter (kept min_area max_area) (contours f g thresh it)) f) ∧
    (found = false → new_calls σ σ' = [] ∧ heap σ' !! frame = Some f) ∧
    (found = true → new_calls σ σ' ≠ []).
Proof.
  intros Hf Hg.
  destruct (motion_detection_run frame first_frame thresh it min_area max_area σ f g
              Hf Hg) as (σ' & Hrun & Hcalls & Hframe & _).
  eexists _, _, σ'. split; [exact Hrun |]. split; [exact Hframe |].
  unfold new_calls. rewrite Hcalls, drop_app_length.
  rewrite Hframe.
  split.
  - intros Hnone. apply bool_decide_eq_false in Hnone.
    assert (Hnil : filter (kept min_area max_area) (contours f g thresh it) = []).
    { destruct (filter (kept min_area max_area) (contours f g thresh it))
        as [| c cs] eqn:Hfilter; [done |].
      assert (Hin : c ∈ filter (kept min_area max_area) (contours f g thresh it)).
      { rewrite Hfilter. by left. }
      apply list_elem_of_filter in Hin as [Hk Hc].
      exfalso. apply Hnone. apply Exists_exists. eauto. }
    by rewrite Hnil.
  - intros Hsome. apply bool_decide_eq_true in Hsome.
    apply Exists_exists in Hsome as (c & Hc & Hk).
    assert (Hin : c ∈ filter (kept min_area max_area) (contours f g thresh it)).
    { by apply list_elem_of_filter. }
    destruct (filter (kept min_area max_area) (contours f g thresh it));
      [by apply elem_of_nil in Hin | done].
Qed.

Lemma motion_detection_found_iff_drawn_witness :
  heap (doubles.world_of [doubles.moved; doubles.still]) !! 0%nat = Some doubles.moved ∧
  heap (doubles.world_of [doubles.moved; doubles.still]) !! 1%nat = Some doubles.still ∧
  ∃ raw_frame found σ',
    @detect.motion_detection doubles.opencv 0%nat 1%nat 10 35 200 245760
      (doubles.world_of [doubles.moved; doubles.still]) =
      Some (0%nat, raw_frame, found, σ') ∧
    (found = false →
     new_calls (doubles.world_of [doubles.moved; doubles.still]) σ' = [] ∧
     heap σ' !! 0%nat = Some doubles.moved) ∧
    (found = true →
     new_calls (doubles.world_of [doubles.moved; doubles.still]) σ' ≠ []).
Proof.
  split; [reflexivity |]. split; [reflexivity |].
  destruct (motion_detection_found_iff_drawn (H := doubles.opencv)
              0%nat 1%nat 10 35 200 245760
              (doubles.world_of [doubles.moved; doubles.still])
              doubles.moved doubles.still eq_refl eq_refl)
    as (raw_frame & found & σ' & Hrun & _ & Hfalse & Htrue).
  exists raw_frame, found, σ'.
  split; [exact Hrun |]. split; [exact Hfalse | exact Htrue].
Defined.

(** X13.  Stricter bounds never add a detection: with a larger
    [min_area] and a smaller [max_area], the boxes drawn are boxes that
    were drawn with the looser bounds, in the same order, and [found] can
    only go from true to false. *)
Theorem motion_detection_stricter_bounds `{OpenCV}
    frame first_frame thresh it min_area max_area min_area' max_area' σ
    (f g : Frame) :
  heap σ !! frame = Some f →
  heap σ !! first_frame = Some g →
  (min_area <= min_area')%Q →
  (max_area' <= max_area)%Q →
  ∃ raw_frame found σ1 raw_frame' found' σ2,
    detect.motion_detection frame first_frame thresh it min_area max_area σ =
      Some (frame, raw_frame, found, σ1) ∧
    detect.motion_detection frame first_frame thresh it min_area' max_area' σ =
      Some (frame, raw_frame', found', σ2) ∧
    new_calls σ σ2 `sublist_of` new_calls σ σ1 ∧
    (found' = true → found = true).
Proof.
  intros Hf Hg Hmin Hmax.
  destruct (motion_detection_run frame first_frame thresh it min_area max_area σ f g
              Hf Hg) as (σ1 & Hrun1 & Hcalls1 & _).
  destruct (motion_detection_run frame first_frame thresh it min_area' max_area' σ f g
              Hf Hg) as (σ2 & Hrun2 & Hcalls2 & _).
  assert (Himpl : ∀ c, kept min_area' max_area' c → kept min_area max_area c).
  { intros c [Ha Hb]. split; [by eapply Qle_trans | by eapply Qle_trans]. }
  eexists _, _, σ1, _, _, σ2.
  split; [exact Hrun1 |]. split; [exact Hrun2 |]. split.
  - unfold new_calls. rewrite Hcalls1, Hcalls2, !drop_app_length.
    apply sublist_map. by apply filter_sublist_impl.
  - rewrite !bool_decide_eq_true. intros Hex. by eapply Exists_impl.
Qed.

Lemma motion_detection_stricter_bounds_witness :
  heap (doubles.world_of [doubles.moved; doubles.still]) !! 0%nat = Some doubles.moved ∧
  heap (doubles.world_of [doubles.moved; doubles.still]) !! 1%nat = Some doubles.still ∧
  (200 <= 200)%Q ∧ (100 <= 245760)%Q ∧
  ∃ raw_frame found σ1 raw_frame' found' σ2,
    @detect.motion_detection doubles.opencv 0%nat 1%nat 10 35 200 245760
      (doubles.world_of [doubles.moved; doubles.still]) =
      Some (0%nat, raw_frame, found, σ1) ∧
    @detect.motion_detection doubles.opencv 0%nat 1%nat 10 35 200 100
      (doubles.world_of [doubles.moved; doubles.still]) =
      Some (0%nat, raw_frame', found', σ2) ∧
    new_calls (doubles.world_of [doubles.moved; doubles.still]) σ2
      `sublist_of` new_calls (doubles.world_of [doubles.moved; doubles.still]) σ1 ∧
    (found' = true → found = true).
Proof.
  assert (Hmin : (200 <= 200)%Q) by (vm_compute; discriminate).
  assert (Hmax : (100 <= 245760)%Q) by (vm_compute; discriminate).
  split; [reflexivity |]. split; [reflexivity |].
  split; [exact Hmin |]. split; [exact Hmax |].
  exact (motion_detection_stricter_bounds (H := doubles.opencv)
           0%nat 1%nat 10 35 200 245760 200 100
           (doubles.world_of [doubles.moved; doubles.still])
           doubles.moved doubles.still eq_refl eq_refl Hmin Hmax).
Defined.

End motion_extras.

Section motion_reference.
Import cv2 cv2_calls observe motion.

(** X14.  The copy returned by one call is a clean reference for the
    next one: whatever was drawn on the first frame, a second call that is
    given the first call's [raw_frame] as its reference compares the new
    frame with the pixels the first frame had on entry. *)
Theorem motion_detection_raw_frame_as_reference `{OpenCV}
    frame first_frame frame2 thresh it min_area max_area σ (f g f2 : Frame) :
  heap σ !! frame = Some f →
  heap σ !! first_frame = Some g →
  heap σ !! frame2 = Some f2 →
  frame2 ≠ frame →
  ∃ raw_frame found σ1 raw_frame2 found2 σ2,
    detect.motion_detection frame first_frame thresh it min_area max_area σ =
      Some (frame, raw_frame, found, σ1) ∧
    detect.motion_detection frame2 raw_frame thresh it min_area max_area σ1 =
      Some (frame2, raw_frame2, found2, σ2) ∧
    new_calls σ1 σ2 =
      map (box_call frame2)
          (filter (kept min_area max_area) (contours f2 f thresh it)) ∧
    heap σ2 !! raw_frame = Some f ∧
    heap σ2 !! raw_frame2 = Some f2 ∧
    raw_frame2 ≠ raw_frame.
Proof.
  intros Hf Hg Hf2 Hne.
  destruct (motion_detection_run frame first_frame thresh it min_area max_area σ f g
              Hf Hg) as (σ1 & Hrun1 & Hcalls1 & Hframe1 & Hraw1 & Hother1).
  assert (Hf2' : heap σ1 !! frame2 = Some f2).
  { rewrite Hother1; [done | done |]. by eapply lookup_lt_Some. }
  destruct (motion_detection_run frame2 (length (heap σ)) thresh it min_area max_area
              σ1 f2 f Hf2' Hraw1) as (σ2 & Hrun2 & Hcalls2 & Hframe2 & Hraw2 & Hother2).
  assert (Hlt : (length (heap σ) < length (heap σ1))%nat).
  { by eapply lookup_lt_Some. }
  eexists _, _, σ1, _, _, σ2.
  split; [exact Hrun1 |]. split; [exact Hrun2 |].
  split; [| split; [| split; [exact Hraw2 | lia]]].
  - unfold new_calls. rewrite Hcalls2. by rewrite drop_app_length.
  - rewrite Hother2; [exact Hraw1 | | exact Hlt].
    apply lookup_lt_Some in Hf2. lia.
Qed.

Lemma motion_detection_raw_frame_as_reference_witness :
  heap (doubles.world_of [doubles.moved; doubles.still; doubles.still]) !! 0%nat =
    Some doubles.moved ∧
  heap (doubles.world_of [doubles.moved; doubles.still; doubles.still]) !! 1%nat =
    Some doubles.still ∧
  heap (doubles.world_of [doubles.moved; doubles.still; doubles.still]) !! 2%nat =
    Some doubles.still ∧
  2%nat ≠ 0%nat ∧
  ∃ raw_frame found σ1 raw_frame2 found2 σ2,
    @detect.motion_detection doubles.opencv 0%nat 1%nat 10 35 200 245760
      (doubles.world_of [doubles.moved; doubles.still; doubles.still]) =
      Some (0%nat, raw_frame, found, σ1) ∧
    @detect.motion_detection doubles.opencv 2%nat raw_frame 10 35 200 245760 σ1 =
      Some (2%nat, raw_frame2, found2, σ2) ∧
    heap σ2 !! raw_frame = Some doubles.moved ∧
    heap σ2 !! raw_frame2 = Some doubles.still.
Proof.
  assert (Hne : 2%nat ≠ 0%nat) by discriminate.
  split; [reflexivity |]. split; [reflexivity |]. split; [reflexivity |].
  split; [exact Hne |].
  destruct (motion_detection_raw_frame_as_reference (H := doubles.opencv)
              0%nat 1%nat 2%nat 10 35 200 245760
              (doubles.world_of [doubles.moved; doubles.still; doubles.still])
              doubles.moved doubles.still doubles.still eq_refl eq_refl eq_refl Hne)
    as (raw_frame & found & σ1 & raw_frame2 & found2 & σ2 & Hrun1 & Hrun2 & _
          & Hraw & Hraw2 & _).
  exists raw_frame, found, σ1, raw_frame2, found2, σ2.
  split; [exact Hrun1 |]. split; [exact Hrun2 |]. split; [exact Hraw | exact Hraw2].
Defined.

End motion_reference.

(** ** More on the sound categorizer *)

Section soundcat_registry.
Import soundcat sounds later.

(** X15.  [add_category] binds the name: it touches nothing outside the
    object and neither [pps] nor the timestamp; afterwards the name is
    bound to the directory, the other names are bound as before, and a
    [play] that speaks does not raise [KeyError] on that name. *)
Theorem add_category_binds `{Rounding} self category_name directory w :
  ∃ self',
    add_category self category_name directory w = (inr self', w) ∧
    _categories self' !! category_name = Some directory ∧
    (∀ other, other ≠ category_name →
              _categories self' !! other = _categories self !! other) ∧
    pps self' = pps self ∧
    _last_play_time self' = _last_play_time self ∧
    ∀ w', fst (play self' category_name false w') ≠ inl (KeyError category_name).
Proof.
  eexists. split; [reflexivity |]. simpl.
  split; [apply lookup_insert_eq |].
  split; [intros other Hne; by apply lookup_insert_ne |].
  split; [done |]. split; [done |].
  intros w'. rewrite play_speaks. simpl. rewrite lookup_insert_eq.
  destruct (listdir w' directory) as [entries |]; [| done].
  destruct (wav_entries entries); [done |].
  destruct (mixer w' && loadable w' _); done.
Qed.

(** X16.  Registering a name again replaces its directory: two
    registrations of the same name leave the object that the second one
    alone leaves. *)
Theorem add_category_overwrites self category_name directory1 directory2 w :
  bind (add_category self category_name directory1)
       (fun self1 => add_category self1 category_name directory2) w =
    add_category self category_name directory2 w.
Proof.
  unfold bind, add_category, ret. simpl. by rewrite insert_insert_eq.
Qed.

(** X17.  A new object has no category: constructing it starts pygame
    and its mixer, in this order, and reads the clock once; whatever the
    name, a [play] that speaks then raises [KeyError] and plays nothing. *)
Theorem fresh_soundcat_has_no_category `{Rounding} pps0 category_name w :
  ∃ self w1,
    __init__ pps0 w = (inr self, w1) ∧
    _categories self = ∅ ∧
    pps self = pps0 ∧
    audio w1 = audio w ++ [pygame_init; mixer_init] ∧
    ticks w1 = S (ticks w) ∧
    play self category_name false w1 = (inl (KeyError category_name), w1).
Proof.
  unfold __init__, bind, emit, time_time, ret. simpl.
  eexists _, _. split; [reflexivity |]. simpl.
  split; [done |]. split; [done |].
  split; [by rewrite <- app_assoc |]. split; [done |].
  rewrite play_speaks. simpl. by rewrite lookup_empty.
Qed.

End soundcat_registry.


Section soundcat_rate_limit.
Import soundcat sounds later bursts.

Lemma Qdiv_1_neg (p : Q) : (p < 0)%Q → (1 / p < 0)%Q ∧ Qeq_bool p 0 = false.
Proof.
  intros Hneg. split.
  - destruct p as [[| n | n] d]; unfold Qlt in *; simpl in *; lia.
  - destruct (Qeq_bool p 0) eqn:Heq; [| done].
    apply Qeq_bool_iff in Heq. lra.
Qed.

Lemma clock_mono (c : nat → Q) (a b : nat) :
  (∀ n, c n <= c (S n))%Q → (a <= b)%nat → (c a <= c b)%Q.
Proof.
  intros Hmono Hle. induction Hle as [| b Hle IH]; [lra |].
  pose proof (Hmono b). lra.
Qed.

(** X18.  Without rate limiting [play] uses neither [pps] nor the
    timestamp: two objects with the same categories do the same to the
    world, raise the same exception, never [ZeroDivisionError], or leave
    the same timestamp, each keeping its own [pps]. *)
Theorem play_without_rate_limit_ignores_pps `{Rounding}
    cats pps1 t1 pps2 t2 category_name w :
  let self1 := {| _categories := cats; pps := pps1; _last_play_time := t1 |} in
  let self2 := {| _categories := cats; pps := pps2; _last_play_time := t2 |} in
  snd (play self1 category_name false w) = snd (play self2 category_name false w) ∧
  match fst (play self1 category_name false w),
        fst (play self2 category_name false w) with
  | inl e1, inl e2 => e1 = e2 ∧ e1 ≠ ZeroDivisionError
  | inr self1', inr self2' =>
      _last_play_time self1' = _last_play_time self2' ∧
      pps self1' = pps1 ∧ pps self2' = pps2
  | _, _ => False
  end.
Proof.
  intros self1 self2. rewrite !play_speaks. simpl.
  destruct (cats !! category_name) as [directory |]; [| done].
  destruct (listdir w directory) as [entries |]; [| done].
  destruct (wav_entries entries); [done |].
  destruct (mixer w && loadable w _); done.
Qed.

(** X19.  With rate limiting on and [pps] equal to zero, [play] raises
    [ZeroDivisionError] whatever the category and the timestamp, after one
    reading of the clock, and plays nothing; the same object plays without
    rate limiting as any other does. *)
Theorem play_rate_limited_zero_pps_raises `{Rounding} self category_name w :
  (pps self == 0)%Q →
  ∃ w',
    play self category_name true w = (inl ZeroDivisionError, w') ∧
    audio w' = audio w ∧ draws w' = draws w ∧ ticks w' = S (ticks w) ∧
    fst (play self category_name false w) ≠ inl ZeroDivisionError.
Proof.
  intros Hzero. apply Qeq_bool_iff in Hzero.
  exists (tick w). rewrite play_rate_limited, Hzero.
  split; [done |]. split; [done |]. split; [done |]. split; [done |].
  rewrite play_speaks.
  destruct (_categories self !! category_name) as [directory |]; [| done].
  destruct (listdir w directory) as [entries |]; [| done].
  destruct (wav_entries entries); [done |].
  cbn zeta. destruct (mixer w && loadable w _); done.
Qed.

Lemma play_rate_limited_zero_pps_raises_witness :
  (0 == 0)%Q ∧
  ∃ w',
    play {| _categories := ∅; pps := 0; _last_play_time := 0 |} "alarm" true world0
      = (inl ZeroDivisionError, w') ∧
    audio w' = audio world0.
Proof.
  split; [reflexivity |].
  destruct (play_rate_limited_zero_pps_raises
              {| _categories := ∅; pps := 0; _last_play_time := 0 |} "alarm" world0
              (Qeq_refl 0))
    as (w' & Hrun & Haudio & _).
  exists w'. split; [exact Hrun | exact Haudio].
Defined.

(** X20.  A negative [pps] whose inverse, as a float, is below zero
    switches the rate limit off: when the clock is not behind the
    timestamp, [play] with rate limiting on reads the clock and then does
    what [play] without rate limiting does.  (An inverse that rounds to
    zero does not: then a call at the very time of the timestamp is held
    back.) *)
Theorem play_negative_pps_never_held_back `{Rounding} self category_name w :
  (pps self < 0)%Q →
  (round (1 / pps self) < 0)%Q →
  (_last_play_time self <= clock w (ticks w))%Q →
  play self category_name true w = play self category_name false (tick w).
Proof.
  intros Hneg Hinv Hlast. destruct (Qdiv_1_neg (pps self) Hneg) as [_ Hpps].
  rewrite play_rate_limited, Hpps.
  assert (Hgt : Qgtb (round (clock w (ticks w) - _last_play_time self))
                     (round (1 / pps self)) = true).
  { apply Qgtb_true_iff.
    assert (Hpos : (0 <= clock w (ticks w) - _last_play_time self)%Q) by lra.
    apply round_mono in Hpos. pose proof round_0 as Hzero. lra. }
  by rewrite Hgt.
Qed.

Lemma play_negative_pps_never_held_back_witness :
  (- (1 # 10) < 0)%Q ∧
  (round (1 / - (1 # 10)) < 0)%Q ∧
  (0 <= clock world0 (ticks world0))%Q ∧
  play {| _categories := {["alarm"%string := "/sounds/alarm"%string]};
          pps := - (1 # 10); _last_play_time := 0 |} "alarm" true world0 =
  play {| _categories := {["alarm"%string := "/sounds/alarm"%string]};
          pps := - (1 # 10); _last_play_time := 0 |} "alarm" false (tick world0).
Proof.
  split; [reflexivity |]. split; [reflexivity |]. split; [discriminate |].
  apply (play_negative_pps_never_held_back
           {| _categories := {["alarm"%string := "/sounds/alarm"%string]};
              pps := - (1 # 10); _last_play_time := 0 |} "alarm" world0).
  - reflexivity.
  - reflexivity.
  - discriminate.
Defined.

(** X21.  Whether a name that was never registered is reported depends
    on the rate limit: with rate limiting on, [play] raises [KeyError]
    exactly when the time since the timestamp, as the float the
    subtraction gives, is more than the float [1 / pps], and returns
    normally, the object as it was, exactly when it is not. *)
Theorem play_unknown_category_reported_unless_held_back `{Rounding}
    self category_name w :
  _categories self !! category_name = None →
  Qeq_bool (pps self) 0 = false →
  (fst (play self category_name true w) = inl (KeyError category_name) ↔
   (round (1 / pps self) <
      float_sub (clock w (ticks w)) (_last_play_time self))%Q) ∧
  (fst (play self category_name true w) = inr self ↔
   (float_sub (clock w (ticks w)) (_last_play_time self) <=
      round (1 / pps self))%Q) ∧
  audio (snd (play self category_name true w)) = audio w.
Proof.
  intros Hnone Hpps. unfold float_sub.
  rewrite play_rate_limited, Hpps, play_speaks, Hnone.
  destruct (Qgtb _ _) eqn:Hgt; simpl.
  - apply Qgtb_true_iff in Hgt. split; [done |]. split; [| done].
    split; [done |]. intros Hle. lra.
  - apply Qgtb_false_iff in Hgt. split; [| done].
    split; [done |]. intros Hlt. lra.
Qed.

Lemma play_unknown_category_reported_unless_held_back_witness :
  _categories self100 !! "doorbell"%string = None ∧
  Qeq_bool (pps self100) 0 = false ∧
  fst (play self100 "doorbell" true world100) = inl (KeyError "doorbell") ∧
  fst (play self100 "doorbell" true world0) = inr self100.
Proof.
  split; [reflexivity |]. split; [reflexivity |]. split.
  - apply (proj1 (play_unknown_category_reported_unless_held_back
                    self100 "doorbell" world100 eq_refl eq_refl)).
    reflexivity.
  - apply (proj1 (proj2 (play_unknown_category_reported_unless_held_back
                           self100 "doorbell" world0 eq_refl eq_refl))).
    discriminate.
Defined.

(** X22.  What [play] never changes, however it ends: the categories and
    [pps] of the object, the clock, the random generator, the file system,
    what the audio library can read and whether its mixer runs.  It reads
    the clock at most twice and draws at most one random number; a call
    that raises, with [pygame.error] as with any other exception, has
    loaded and played nothing; as many samples are loaded as are played,
    at most one; and the timestamp changes only when a sample was
    played. *)
Theorem play_invariants `{Rounding} self category_name use_pps w :
  let r := fst (play self category_name use_pps w) in
  let w' := snd (play self category_name use_pps w) in
  _categories (after self r) = _categories self ∧
  pps (after self r) = pps self ∧
  clock w' = clock w ∧ random w' = random w ∧ listdir w' = listdir w ∧
  loadable w' = loadable w ∧ mixer w' = mixer w ∧
  (∀ e, r = inl e → audio w' = audio w) ∧
  (ticks w <= ticks w' <= ticks w + 2)%nat ∧
  (draws w <= draws w' <= draws w + 1)%nat ∧
  loads (new_audio w w') = plays (new_audio w w') ∧
  (plays (new_audio w w') <= 1)%nat ∧
  (plays (new_audio w w') = 0%nat →
   _last_play_time (after self r) = _last_play_time self).
Proof.
  assert (Hspeak : ∀ w0,
    let r := fst (play self category_name false w0) in
    let w' := snd (play self category_name false w0) in
    _categories (after self r) = _categories self ∧
    pps (after self r) = pps self ∧
    clock w' = clock w0 ∧ random w' = random w0 ∧ listdir w' = listdir w0 ∧
    loadable w' = loadable w0 ∧ mixer w' = mixer w0 ∧
    (ticks w0 <= ticks w' <= ticks w0 + 1)%nat ∧
    (draws w0 <= draws w' <= draws w0 + 1)%nat ∧
    ((audio w' = audio w0 ∧ after self r = self) ∨
     ∃ p self', r = inr self' ∧
                audio w' = audio w0 ++ [Sound_load p; Sound_play p])).
  { intros w0. rewrite play_speaks.
    destruct (_categories self !! category_name) as [directory |].
    2: { simpl. repeat split; try done; try lia. by left. }
    destruct (listdir w0 directory) as [entries |].
    2: { simpl. repeat split; try done; try lia. by left. }
    destruct (wav_entries entries) as [| sound0 sounds].
    { simpl. repeat split; try done; try lia. by left. }
    cbn zeta. destruct (mixer w0 && loadable w0 _).
    - cbn -[Z.modulo length nth]. repeat split; try done; try lia.
      right. eexists _, _. split; [done |]. by rewrite <- app_assoc.
    - cbn -[Z.modulo length nth]. repeat split; try done; try lia. by left. }
  assert (Hfinish : ∀ w0 w' (r : Exception + Soundcat),
    audio w0 = audio w →
    ((audio w' = audio w0 ∧ after self r = self) ∨
     ∃ p self', r = inr self' ∧
                audio w' = audio w0 ++ [Sound_load p; Sound_play p]) →
    (∀ e, r = inl e → audio w' = audio w) ∧
    loads (new_audio w w') = plays (new_audio w w') ∧
    (plays (new_audio w w') <= 1)%nat ∧
    (plays (new_audio w w') = 0%nat →
     _last_play_time (after self r) = _last_play_time self)).
  { intros w0 w' r Hw0 [[Haudio Hafter] | (p & self' & -> & Haudio)].
    - rewrite (new_audio_same w w') by congruence. rewrite Hafter. cbn.
      split; [intros; congruence |]. split; [done |]. split; [lia | done].
    - rewrite (new_audio_app w w' [Sound_load p; Sound_play p]) by congruence.
      cbn. split; [done |]. split; [done |]. split; [lia | done]. }
  assert (Hsilent : ∀ r : Exception + Soundcat, after self r = self →
    _categories (after self r) = _categories self ∧
    pps (after self r) = pps self ∧
    clock (tick w) = clock w ∧ random (tick w) = random w ∧
    listdir (tick w) = listdir w ∧
    loadable (tick w) = loadable w ∧ mixer (tick w) = mixer w ∧
    (∀ e, r = inl e → audio (tick w) = audio w) ∧
    (ticks w <= ticks (tick w) <= ticks w + 2)%nat ∧
    (draws w <= draws (tick w) <= draws w + 1)%nat ∧
    loads (new_audio w (tick w)) = plays (new_audio w (tick w)) ∧
    (plays (new_audio w (tick w)) <= 1)%nat ∧
    (plays (new_audio w (tick w)) = 0%nat →
     _last_play_time (after self r) = _last_play_time self)).
  { intros r Hafter. rewrite Hafter, (new_audio_same w (tick w)) by done.
    cbn. repeat split; try done; lia. }
  destruct use_pps.
  - rewrite play_rate_limited.
    destruct (Qeq_bool (pps self) 0); [by apply Hsilent |].
    destruct (Qgtb _ _); [| by apply Hsilent].
    destruct (Hspeak (tick w)) as (Hc & Hp & Hclock & Hrandom & Hlist & Hload
                                     & Hmixer & Hticks & Hdraws & Haudio).
    cbn zeta. split; [exact Hc |]. split; [exact Hp |].
    split; [exact Hclock |]. split; [exact Hrandom |]. split; [exact Hlist |].
    split; [exact Hload |]. split; [exact Hmixer |].
    destruct (Hfinish (tick w) _ _ eq_refl Haudio) as (Hexc & Hloads & Hplays & Hstamp).
    split; [exact Hexc |].
    split; [simpl in Hticks; lia |]. split; [simpl in Hdraws; lia |].
    split; [exact Hloads |]. split; [exact Hplays | exact Hstamp].
  - destruct (Hspeak w) as (Hc & Hp & Hclock & Hrandom & Hlist & Hload
                              & Hmixer & Hticks & Hdraws & Haudio).
    cbn zeta. split; [exact Hc |]. split; [exact Hp |].
    split; [exact Hclock |]. split; [exact Hrandom |]. split; [exact Hlist |].
    split; [exact Hload |]. split; [exact Hmixer |].
    destruct (Hfinish w _ _ eq_refl Haudio) as (Hexc & Hloads & Hplays & Hstamp).
    split; [exact Hexc |].
    split; [lia |]. split; [lia |].
    split; [exact Hloads |]. split; [exact Hplays | exact Hstamp].
Qed.

End soundcat_rate_limit.


Section soundcat_bursts.
Import soundcat sounds later bursts.

(** Calls that all come within [1 / pps] of the timestamp play nothing
    and leave the object as it is. *)
Lemma play_each_held_back `{Rounding} category_names : ∀ self w,
  (∀ k, (ticks w <= k < ticks w + length category_names)%nat →
        (clock w k - _last_play_time self <= 1 / pps self)%Q) →
  fst (play_each self category_names true w) = self ∧
  audio (snd (play_each self category_names true w)) = audio w.
Proof.
  induction category_names as [| category_name rest IH]; intros self w Hwin; [done |].
  cbn [play_each]. rewrite play_rate_limited.
  assert (Hrest : ∀ k, (ticks (tick w) <= k < ticks (tick w) + length rest)%nat →
                       (clock (tick w) k - _last_play_time self <= 1 / pps self)%Q).
  { intros k Hk. apply Hwin. simpl in *. lia. }
  destruct (IH self (tick w) Hrest) as [Hself Haudio].
  destruct (Qeq_bool (pps self) 0).
  { cbn [after]. split; [exact Hself | by rewrite Haudio]. }
  assert (Hle : Qgtb (round (clock w (ticks w) - _last_play_time self))
                     (round (1 / pps self)) = false).
  { apply Qgtb_false_iff, round_mono, Hwin. simpl. lia. }
  rewrite Hle. cbn [after]. split; [exact Hself | by rewrite Haudio].
Qed.

(** X23.  A burst of calls with rate limiting on plays at most one
    sample: when the clock does not run backwards and every reading the
    calls can make is less than [1 / pps] seconds after the first one,
    the calls together load and play at most one sample, whatever the
    names and whichever calls raise. *)
Theorem play_each_burst_plays_at_most_once `{Rounding} category_names :
  ∀ self w,
  (∀ n, clock w n <= clock w (S n))%Q →
  (∀ k, (ticks w <= k <= ticks w + 2 * length category_names)%nat →
        (clock w k - clock w (ticks w) < 1 / pps self)%Q) →
  (plays (new_audio w (snd (play_each self category_names true w))) <= 1)%nat ∧
  loads (new_audio w (snd (play_each self category_names true w))) =
    plays (new_audio w (snd (play_each self category_names true w))).
Proof.
  induction category_names as [| category_name rest IH]; intros self w Hmono Hwin.
  { cbn [play_each snd]. rewrite (new_audio_same w w) by done. cbn. split; [lia | done]. }
  cbn [play_each].
  destruct (play self category_name true w) as [r w1] eqn:Hplay.
  apply play_rate_limited_outcome in Hplay as [Hclock Hout].
  destruct Hout as [(Haudio & Hself & Hticks) |
                    (p & self1 & -> & Haudio & Hticks & Hlast & Hpps1 & Hcats1 & _)].
  - (* the first call is silent: the rest is a shorter burst *)
    rewrite Hself.
    assert (Hnew : ∀ w2, new_audio w w2 = new_audio w1 w2).
    { intros w2. unfold new_audio. by rewrite Haudio. }
    rewrite !Hnew. apply IH.
    + intros n. rewrite Hclock. apply Hmono.
    + intros k Hk. rewrite Hclock, Hticks.
      assert (Hk' : (ticks w <= k <= ticks w + 2 * length (category_name :: rest))%nat).
      { simpl. lia. }
      pose proof (Hwin k Hk') as Hlt.
      pose proof (Hmono (ticks w)) as Hstep. lra.
  - (* the first call plays: the others come too early *)
    cbn [after].
    destruct (play_each_held_back rest self1 w1) as [_ Hsame].
    { intros k Hk. rewrite Hclock, Hlast, Hpps1.
      assert (Hk' : (ticks w <= k <= ticks w + 2 * length (category_name :: rest))%nat).
      { simpl. lia. }
      pose proof (Hwin k Hk') as Hlt.
      pose proof (Hmono (ticks w)) as Hstep. lra. }
    rewrite (new_audio_app w _ [Sound_load p; Sound_play p]) by congruence.
    cbn. split; [lia | done].
Qed.

Lemma play_each_burst_plays_at_most_once_witness :
  (∀ n, clock world100 n <= clock world100 (S n))%Q ∧
  (∀ k, (ticks world100 <= k <= ticks world100 + 2 * 3)%nat →
        (clock world100 k - clock world100 (ticks world100) < 1 / pps self100)%Q) ∧
  plays (new_audio world100
           (snd (play_each self100 ["alarm"; "empty"; "alarm"]%string true world100)))
    = 1%nat ∧
  (plays (new_audio world100
            (snd (play_each self100 ["alarm"; "empty"; "alarm"]%string true world100)))
     <= 1)%nat.
Proof.
  assert (Hmono : (∀ n, clock world100 n <= clock world100 (S n))%Q).
  { intros n. unfold world100, Qle. simpl. lia. }
  assert (Hwin : ∀ k, (ticks world100 <= k <= ticks world100 + 2 * 3)%nat →
            (clock world100 k - clock world100 (ticks world100) < 1 / pps self100)%Q).
  { intros k Hk.
    do 7 (destruct k as [| k]; [vm_compute; reflexivity |]).
    simpl in Hk. lia. }
  split; [exact Hmono |]. split; [exact Hwin |]. split; [vm_compute; reflexivity |].
  exact (proj1 (play_each_burst_plays_at_most_once
                  ["alarm"; "empty"; "alarm"]%string self100 world100 Hmono Hwin)).
Defined.

End soundcat_bursts.


(** ** Cropping *)

Section crop_extras.
Import cv2.

Lemma slice_index_range n i : 0 <= n → 0 <= np.slice_index n i <= n.
Proof. intros Hn. unfold np.slice_index. destruct (i <? 0) eqn:Hi; lia. Qed.

Lemma slice_length {A} (l : list A) (start stop : Z) :
  Z.of_nat (length (np.slice start stop l)) =
    Z.max 0 (np.slice_index (Z.of_nat (length l)) stop
             - np.slice_index (Z.of_nat (length l)) start).
Proof.
  unfold np.slice. rewrite length_take, length_drop.
  pose proof (slice_index_range (Z.of_nat (length l)) start ltac:(lia)).
  pose proof (slice_index_range (Z.of_nat (length l)) stop ltac:(lia)).
  lia.
Qed.

Lemma slice_all {A} (l : list A) (stop : Z) :
  Z.of_nat (length l) <= stop → np.slice 0 stop l = l.
Proof.
  intros Hstop. unfold np.slice, np.slice_index. simpl.
  destruct (stop <? 0) eqn:Hneg; [lia |].
  rewrite Z.min_r by lia. rewrite Z.min_l by lia. rewrite Z.sub_0_r, Nat2Z.id.
  simpl. apply firstn_all.
Qed.

Lemma slice_lookup_resolved {A} (l : list A) (start stop : Z) (i : nat) :
  np.slice start stop l !! i =
    if decide (np.slice_index (Z.of_nat (length l)) start + Z.of_nat i
               < np.slice_index (Z.of_nat (length l)) stop)
    then l !! (Z.to_nat (np.slice_index (Z.of_nat (length l)) start) + i)%nat
    else None.
Proof.
  unfold np.slice.
  pose proof (slice_index_range (Z.of_nat (length l)) start ltac:(lia)) as Hs.
  pose proof (slice_index_range (Z.of_nat (length l)) stop ltac:(lia)) as He.
  set (s := np.slice_index (Z.of_nat (length l)) start) in *.
  set (e := np.slice_index (Z.of_nat (length l)) stop) in *.
  destruct (decide (s + Z.of_nat i < e)) as [Hin | Hout].
  - rewrite lookup_take_lt by lia. by rewrite lookup_drop.
  - apply lookup_ge_None_2. rewrite length_take. lia.
Qed.

(** X24.  [crop(img, startx, endx, starty, endy)] takes its x bounds
    before its y bounds and is [img[starty:endy, startx:endx]]: on a
    stored image it never fails, and for any bounds, once each is resolved
    as Python resolves the bound of a slice (a negative one counts from the
    end, and all are clipped), pixel (i, j) of the crop is the pixel of the
    image at row [i] after the first row bound and column [j] after the
    first column bound, for the rows and columns before the second
    bounds, and there is nothing beyond; so it has as many rows as lie
    between the resolved row bounds, none when the second does not exceed
    the first.  With bounds that are not negative this is pixel
    (starty + i, startx + j) of the image. *)
Theorem crop_pixels_and_shape (hp : list Frame) img (f : Frame) startx endx starty endy :
  hp !! img = Some f →
  let sy := np.slice_index (Z.of_nat (length f)) starty in
  let ey := np.slice_index (Z.of_nat (length f)) endy in
  ∃ sub : Frame,
    pixels (imgutils.crop img startx endx starty endy) hp = Some sub ∧
    Z.of_nat (length sub) = Z.max 0 (ey - sy) ∧
    (∀ i j : nat,
       sub !! i ≫= (.!! j) =
         if decide (sy + Z.of_nat i < ey)
         then
           f !! (Z.to_nat sy + i)%nat ≫= fun row =>
             let sx := np.slice_index (Z.of_nat (length row)) startx in
             let ex := np.slice_index (Z.of_nat (length row)) endx in
             if decide (sx + Z.of_nat j < ex)
             then row !! (Z.to_nat sx + j)%nat
             else None
         else None) ∧
    (0 <= startx → 0 <= endx → 0 <= starty → 0 <= endy →
     ∀ i j : nat,
       sub !! i ≫= (.!! j) =
         if decide (starty + Z.of_nat i < endy ∧ startx + Z.of_nat j < endx)
         then f !! (Z.to_nat starty + i)%nat ≫= (.!! (Z.to_nat startx + j)%nat)
         else None).
Proof.
  intros Hf sy ey. exists (np.slice2 starty endy startx endx f).
  split; [unfold imgutils.crop; simpl; by rewrite Hf |].
  split; [unfold np.slice2; rewrite length_map; apply slice_length |].
  split.
  - intros i j. unfold np.slice2.
    rewrite list_lookup_fmap, slice_lookup_resolved. fold sy ey.
    destruct (decide (sy + Z.of_nat i < ey)); [| done].
    destruct (f !! (Z.to_nat sy + i)%nat) as [row |]; [| done].
    simpl. apply slice_lookup_resolved.
  - intros Hsx Hex Hsy Hey i j. by apply slice2_lookup.
Qed.

Lemma crop_pixels_and_shape_witness :
  [[[(1, 1, 1); (2, 2, 2); (3, 3, 3)]; [(4, 4, 4); (5, 5, 5); (6, 6, 6)]]] !! 0%nat =
    Some [[(1, 1, 1); (2, 2, 2); (3, 3, 3)]; [(4, 4, 4); (5, 5, 5); (6, 6, 6)]] ∧
  ∃ sub : Frame,
    pixels (imgutils.crop 0%nat (-2) 3 (-1) 2)
      [[[(1, 1, 1); (2, 2, 2); (3, 3, 3)]; [(4, 4, 4); (5, 5, 5); (6, 6, 6)]]] = Some sub ∧
    Z.of_nat (length sub) = 1.
Proof.
  split; [reflexivity |].
  destruct (crop_pixels_and_shape
              [[[(1, 1, 1); (2, 2, 2); (3, 3, 3)]; [(4, 4, 4); (5, 5, 5); (6, 6, 6)]]]
              0%nat
              [[(1, 1, 1); (2, 2, 2); (3, 3, 3)]; [(4, 4, 4); (5, 5, 5); (6, 6, 6)]]
              (-2) 3 (-1) 2 eq_refl)
    as (sub & Hsub & Hlen & _).
  exists sub. split; [exact Hsub | exact Hlen].
Defined.

(** X25.  Cropping from the origin to bounds that reach the last row and
    the end of every row gives the whole image back, however far the
    bounds lie beyond it: bounds outside the image are clipped, they do
    not raise. *)
Theorem crop_beyond_the_image (hp : list Frame) img (f : Frame) endx endy :
  hp !! img = Some f →
  Z.of_nat (length f) <= endy →
  (∀ row, In row f → Z.of_nat (length row) <= endx) →
  pixels (imgutils.crop img 0 endx 0 endy) hp = Some f.
Proof.
  intros Hf Hendy Hendx. unfold imgutils.crop. simpl. rewrite Hf. simpl.
  f_equal. unfold np.slice2. rewrite slice_all by done.
  rewrite <- (map_id f) at 2. apply map_ext_in.
  intros row Hrow. apply slice_all. by apply Hendx.
Qed.

Lemma crop_beyond_the_image_witness :
  [[[(1, 1, 1); (2, 2, 2); (3, 3, 3)]; [(4, 4, 4); (5, 5, 5); (6, 6, 6)]]] !! 0%nat =
    Some [[(1, 1, 1); (2, 2, 2); (3, 3, 3)]; [(4, 4, 4); (5, 5, 5); (6, 6, 6)]] ∧
  pixels (imgutils.crop 0%nat 0 640 0 480)
    [[[(1, 1, 1); (2, 2, 2); (3, 3, 3)]; [(4, 4, 4); (5, 5, 5); (6, 6, 6)]]] =
    Some [[(1, 1, 1); (2, 2, 2); (3, 3, 3)]; [(4, 4, 4); (5, 5, 5); (6, 6, 6)]].
Proof.
  split; [reflexivity |].
  apply (crop_beyond_the_image
           [[[(1, 1, 1); (2, 2, 2); (3, 3, 3)]; [(4, 4, 4); (5, 5, 5); (6, 6, 6)]]]
           0%nat
           [[(1, 1, 1); (2, 2, 2); (3, 3, 3)]; [(4, 4, 4); (5, 5, 5); (6, 6, 6)]]
           640 480 eq_refl).
  - simpl. lia.
  - intros row [<- | [<- | []]]; simpl; lia.
Defined.

End crop_extras.


(** ** The samples of a directory *)

Section wav_entries_extras.
Import soundcat.

Lemma substring_all (s : string) : substring 0 (String.length s) s = s.
Proof. induction s as [| a s IH]; simpl; [done | by rewrite IH]. Qed.

Lemma string_length_app (s t : string) :
  String.length (s +:+ t) = (String.length s + String.length t)%nat.
Proof. induction s as [| a s IH]; simpl; [done | by rewrite IH]. Qed.

Lemma substring_app_r (s t : string) :
  substring (String.length s) (String.length t) (s +:+ t) = t.
Proof. induction s as [| a s IH]; simpl; [apply substring_all | exact IH]. Qed.

Lemma substring_split (s : string) : ∀ k, (k <= String.length s)%nat →
  s = (substring 0 k s +:+ substring k (String.length s - k) s)%string.
Proof.
  induction s as [| a s IH]; intros k Hk.
  - destruct k; [done | simpl in Hk; lia].
  - destruct k as [| k]; simpl.
    + by rewrite substring_all.
    + change (String a s =
              String a (substring 0 k s +:+ substring k (String.length s - k) s)).
      f_equal. apply IH. simpl in Hk. lia.
Qed.

(** [s.endswith(suffix)] holds exactly of the strings that are something
    followed by [suffix]. *)
Lemma endswith_iff (s suffix : string) :
  endswith s suffix = true ↔ ∃ stem, s = (stem +:+ suffix)%string.
Proof.
  unfold endswith. rewrite andb_true_iff, Nat.leb_le, String.eqb_eq. split.
  - intros [Hle Hsub].
    exists (substring 0 (String.length s - String.length suffix) s).
    pose proof (substring_split s (String.length s - String.length suffix)
                  ltac:(lia)) as Hsplit.
    replace (String.length s - (String.length s - String.length suffix))%nat
      with (String.length suffix) in Hsplit by lia.
    by rewrite Hsub in Hsplit.
  - intros [stem ->]. rewrite string_length_app. split; [lia |].
    replace (String.length stem + String.length suffix - String.length suffix)%nat
      with (String.length stem) by lia.
    apply substring_app_r.
Qed.

(** X26.  The samples [play] chooses from are the entries of the listing
    that are something followed by [.wav], in lower case, the bare name
    [.wav] among them; they keep the order of the listing, and an entry
    that ends in [.WAV] is never one of them. *)
Theorem wav_entries_spec (entries : list string) :
  (∀ entry, In entry (wav_entries entries) ↔
            In entry entries ∧ ∃ stem, entry = (stem +:+ ".wav")%string) ∧
  sublist (wav_entries entries) entries ∧
  (In ".wav"%string entries → In ".wav"%string (wav_entries entries)) ∧
  (∀ stem, ¬ In (stem +:+ ".WAV")%string (wav_entries entries)).
Proof.
  rewrite wav_entries_filter.
  assert (Hsub : sublist (List.filter (fun entry => endswith entry ".wav") entries)
                         entries).
  { induction entries as [| e entries IH]; simpl; [constructor |].
    destruct (endswith e ".wav"); [by apply sublist_skip | by apply sublist_cons]. }
  assert (Hin : ∀ entry,
    In entry (List.filter (fun entry => endswith entry ".wav") entries) ↔
    In entry entries ∧ ∃ stem, entry = (stem +:+ ".wav")%string).
  { intros entry. rewrite filter_In. by rewrite endswith_iff. }
  split; [exact Hin |]. split; [| split].
  - exact Hsub.
  - intros Hwav. apply Hin. split; [exact Hwav |]. by exists ""%string.
  - intros stem Hstem. apply filter_In in Hstem as [_ Hends].
    unfold endswith in Hends. apply andb_true_iff in Hends as [_ Heq].
    apply String.eqb_eq in Heq. rewrite string_length_app in Heq.
    replace (String.length stem + String.length ".WAV" - String.length ".wav")%nat
      with (String.length stem) in Heq by (simpl; lia).
    change (String.length ".wav") with (String.length ".WAV") in Heq.
    rewrite substring_app_r in Heq. discriminate.
Qed.

End wav_entries_extras.


(** ** After [quit] *)

Section soundcat_quit.
Import soundcat sounds later.


End soundcat_quit.
